(** * parse_dict_entries.py: splitting the dictionary array into one file per entry

    A shallow embedding of [scripts/parse_dict_entries.py] and the
    properties of its filename sanitiser and of its splitting loop.

    Python values are modelled as data: a [str] is the list of its Unicode
    code points, the result of [json.load] is a tree of [value]s, the
    [defaultdict(int)] of seen titles is a finite map with default [0], and
    the file store is a finite map from paths to the text they hold, with
    the answers of the operating system that the store does not show. *)

From Stdlib Require Import ZArith NArith List Ascii String Lia.
From Stdlib Require Import DecimalN DecimalFacts.
From Stdlib Require Import Floats.SpecFloat.
From stdpp Require Import base option list countable gmap.

Import ListNotations.
Local Open Scope N_scope.
Local Open Scope list_scope.

(** ** Strings *)

(** A Python [str]: a sequence of Unicode code points. *)
Abbreviation char := N (only parsing).
Abbreviation str := (list N) (only parsing).

(** An ASCII literal as a [str]. *)
Definition lit (s : string) : str := map N_of_ascii (list_ascii_of_string s).

(** [str.isspace] on one code point, as [str.strip()] uses it
    (CPython's [_PyUnicode_IsWhitespace]). *)
Definition Py_UNICODE_ISSPACE (c : char) : bool :=
  ((9 <=? c) && (c <=? 13))          (* \t \n \v \f \r *)
  || ((28 <=? c) && (c <=? 32))      (* FS GS RS US and the space *)
  || (c =? 133) || (c =? 160)        (* U+0085, U+00A0 *)
  || (c =? 5760)                     (* U+1680 *)
  || ((8192 <=? c) && (c <=? 8202))  (* U+2000 .. U+200A *)
  || (c =? 8232) || (c =? 8233)      (* U+2028, U+2029 *)
  || (c =? 8239) || (c =? 8287)      (* U+202F, U+205F *)
  || (c =? 12288).                   (* U+3000 *)

Fixpoint lstrip (s : str) : str :=
  match s with
  | c :: s' => if Py_UNICODE_ISSPACE c then lstrip s' else s
  | [] => []
  end.

Definition rstrip (s : str) : str := reverse (lstrip (reverse s)).

(** [s.strip()] with no argument. *)
Definition str_strip (s : str) : str := rstrip (lstrip s).

(** ** Regular expression substitution with a character class *)

(** Membership of a code point in a bracket class. *)
Definition class_matches (cls : list char) (c : char) : bool :=
  existsb (N.eqb c) cls.

(** [re.sub(pattern, repl, s)] for a pattern that is one bracket class: the
    matches are the single characters of the class, each replaced by [repl]. *)
Definition re_sub_class (cls : list char) (repl : str) (s : str) : str :=
  flat_map (fun c => if class_matches cls c then repl else [c]) s.

(** ** sanitise_filename *)

(** The bracket class of the pattern bound to [invalid_chars], by code
    point: backslash (written escaped in the pattern), slash, colon, star,
    question mark, double quote (written escaped), less-than, greater-than
    and bar. *)
Definition invalid_chars : list char :=
  [92; 47; 58; 42; 63; 34; 60; 62; 124].

Definition underscore : char := 95.

Definition sanitise_filename (name : str) : str :=
  let name := re_sub_class invalid_chars [underscore] name in
  let name := str_strip name in
  name.

(** The replacement as the specification words it: every reserved character
    becomes an underscore, every other character stays. *)
Definition spec_replace (c : char) : char :=
  if class_matches invalid_chars c then underscore else c.

(** ** Values loaded from JSON *)

(** What [json.load] can return: [None], a [bool], an [int], a [float]
    (IEEE binary64, as data), a [str], a [list] or a [dict] with string
    keys in insertion order. *)
#[warnings="-register-all"]
Inductive value : Type :=
| VNone
| VBool (b : bool)
| VInt (z : Z)
| VFloat (f : spec_float)
| VStr (s : str)
| VList (l : list value)
| VDict (d : list (str * value)).

(** Truth value of an object, as [not title] tests it. *)
Definition truthy (v : value) : bool :=
  match v with
  | VNone => false
  | VBool b => b
  | VInt z => negb (z =? 0)%Z
  | VFloat (S754_zero _) => false
  | VFloat _ => true
  | VStr s => negb (bool_decide (s = []))
  | VList l => match l with [] => false | _ :: _ => true end
  | VDict d => match d with [] => false | _ :: _ => true end
  end.

Fixpoint dict_lookup (d : list (str * value)) (key : str) : option value :=
  match d with
  | [] => None
  | (k, v) :: d' => if bool_decide (k = key) then Some v else dict_lookup d' key
  end.

(** [d.get(key)]: the value at [key], [None] when the key is absent. *)
Definition dict_get (d : list (str * value)) (key : str) : value :=
  default VNone (dict_lookup d key).

(** Exceptions the script can end with. *)
Inductive exn : Type :=
| FileNotFoundError
| JSONDecodeError
| TypeError
| AttributeError
| ValueError
| UnicodeEncodeError
| UnicodeDecodeError
| FileExistsError
| NotADirectoryError
| IsADirectoryError
| PermissionError
| OSError
| RecursionError.

(** [entry.get(key)]: only a [dict] has the method. *)
Definition value_get (entry : value) (key : str) : exn + value :=
  match entry with
  | VDict d => inr (dict_get d key)
  | _ => inl AttributeError
  end.

(** The items a [for] loop draws from an object: the elements of a list, the
    keys of a dict, the characters of a string; other JSON values are not
    iterable. *)
Definition py_iter (v : value) : exn + list value :=
  match v with
  | VList l => inr l
  | VDict d => inr (map (λ kv, VStr (fst kv)) d)
  | VStr s => inr (map (λ c, VStr [c]) s)
  | _ => inl TypeError
  end.

(** [sanitise_filename] applied to a loaded value: [re.sub] raises
    [TypeError] on a subject that is not a string. *)
Definition sanitise_filename_of (title : value) : exn + str :=
  match title with
  | VStr name => inr (sanitise_filename name)
  | _ => inl TypeError
  end.

(** A surrogate code point: the [utf-8] codec refuses it. *)
Definition is_surrogate (c : char) : bool := (55296 <=? c) && (c <=? 57343).

Definition str_encodable (s : str) : bool :=
  forallb (λ c, negb (is_surrogate c)) s.

(** No string of the value, key or item, holds a surrogate: the text
    [json.dump] produces with [ensure_ascii=False] can be encoded. *)
Fixpoint value_encodable (v : value) : bool :=
  match v with
  | VStr s => str_encodable s
  | VList l => forallb value_encodable l
  | VDict d =>
    forallb (λ kv, let '(k, x) := kv in str_encodable k && value_encodable x) d
  | _ => true
  end.

(** ** Formatting *)

Fixpoint uint_chars (u : Decimal.uint) : str :=
  match u with
  | Decimal.Nil => []
  | Decimal.D0 u => 48 :: uint_chars u
  | Decimal.D1 u => 49 :: uint_chars u
  | Decimal.D2 u => 50 :: uint_chars u
  | Decimal.D3 u => 51 :: uint_chars u
  | Decimal.D4 u => 52 :: uint_chars u
  | Decimal.D5 u => 53 :: uint_chars u
  | Decimal.D6 u => 54 :: uint_chars u
  | Decimal.D7 u => 55 :: uint_chars u
  | Decimal.D8 u => 56 :: uint_chars u
  | Decimal.D9 u => 57 :: uint_chars u
  end.

(** A count inside an f-string: its decimal digits. *)
Definition format_int (n : N) : str := uint_chars (N.to_uint n).

Definition dot_json : str := lit ".json".

(** ** The file store and the table of seen titles *)

(** [b.startswith(sep)] and [path.endswith(sep)] for the separator [/]. *)
Definition sep : char := 47.

Definition startswith_sep (b : str) : bool :=
  match b with
  | c :: _ => c =? sep
  | [] => false
  end.

Definition endswith_sep (path : str) : bool :=
  match last path with
  | Some c => c =? sep
  | None => false
  end.

(** [os.path.join(path, b)] on POSIX: an absolute [b] replaces [path], an
    empty [path] or one that ends with the separator is extended by [b],
    otherwise the separator is put in between. *)
Definition os_path_join (path b : str) : str :=
  if startswith_sep b then b
  else if bool_decide (path = []) || endswith_sep path then path ++ b
  else path ++ [sep] ++ b.

(** What is put between the directory and a relative name. *)
Definition joint (path : str) : str :=
  if bool_decide (path = []) || endswith_sep path then [] else [sep].

(** The store.  [files] maps the path of a regular file to its text,
    [dirs] holds the directories, and [written] is the log of the texts put
    into files, oldest first.  Paths are compared as they are written.
    What is raised for reasons the store does not show is given by
    [os_refuses], for a path that is created or opened for writing
    (permissions, limits on names), by [write_refuses], for the dump of a
    value into a file that was opened (a disk that is full, a value nested
    too deep for the encoder), and by [read_refuses], for a path that is
    read as text; [flushed] tells how many characters of its text reach the
    file when the dump of a value fails. *)
Record world : Type := World {
  files : gmap (list N) (list N);
  dirs : gset (list N);
  written : list (str * str);
  os_refuses : list N → option exn;
  write_refuses : list N → value → option exn;
  read_refuses : list N → option exn;
  flushed : value → nat
}.

(** A surrogate the file system encoding lets through (surrogateescape). *)
Definition fs_escaped (c : char) : bool := (56448 <=? c) && (c <=? 56575).

(** What a path raises before the operating system is asked: a surrogate
    that cannot be encoded, an embedded null character. *)
Definition path_fault (path : str) : option exn :=
  if existsb (λ c, is_surrogate c && negb (fs_escaped c)) path
  then Some UnicodeEncodeError
  else if existsb (N.eqb 0) path then Some ValueError
  else None.

(** The directories above a path: what is in front of each separator. *)
Definition parents (path : str) : list str :=
  omap (λ i, if bool_decide (path !! i = Some sep)
             then let p := take i path in
                  if bool_decide (p = []) || endswith_sep p then None
                  else Some p
             else None)
       (seq 0 (length path)).

(** The store with one more directory. *)
Definition add_dir (p : str) (w : world) : world :=
  {| files := files w;
     dirs := {[ p ]} ∪ dirs w;
     written := written w;
     os_refuses := os_refuses w;
     write_refuses := write_refuses w;
     read_refuses := read_refuses w;
     flushed := flushed w |}.

(** [os.mkdir] on each of a list of nested paths, the outermost first, as
    [os.makedirs] does it: a directory that exists is passed over; a regular
    file in the way raises, [FileExistsError] at the last path and
    [NotADirectoryError] (or what the next path raises by itself) above it;
    the directories made before a raise stay. *)
Fixpoint mkdir_each (ps : list str) (w : world) : (exn * world) + world :=
  match ps with
  | [] => inr w
  | p :: rest =>
    match path_fault p with
    | Some e => inl (e, w)
    | None =>
      if bool_decide (p ∈ dirs w) then mkdir_each rest w
      else if bool_decide (is_Some (files w !! p)) then
        match rest with
        | [] => inl (FileExistsError, w)
        | q :: _ => inl (default NotADirectoryError (path_fault q), w)
        end
      else
        match os_refuses w p with
        | Some e => inl (e, w)
        | None => mkdir_each rest (add_dir p w)
        end
    end
  end.

(** [os.makedirs(path, exist_ok=True)]: the parents that are missing and
    the path become directories; an empty path raises.  A raise comes with
    the store it leaves. *)
Definition os_makedirs (path : str) (w : world) : (exn * world) + world :=
  if bool_decide (path = []) then inl (FileNotFoundError, w)
  else mkdir_each (parents path ++ [path]) w.

(** [with open(path, 'r', encoding='utf-8') as f: f.read()], as
    [json.load] reads the input.  A text that holds a surrogate stands for
    bytes that do not decode. *)
Definition read_text (path : str) (w : world) : exn + str :=
  match path_fault path with
  | Some e => inl e
  | None =>
    if bool_decide (path ∈ dirs w) then inl IsADirectoryError
    else
      match files w !! path with
      | None => inl FileNotFoundError
      | Some text =>
        match read_refuses w path with
        | Some e => inl e
        | None =>
          if str_encodable text then inr text else inl UnicodeDecodeError
        end
      end
  end.

(** The directory a path lies in is missing: the path names one, and it
    is not a directory of the store. *)
Definition parent_missing (path : str) (w : world) : bool :=
  match last (parents path) with
  | Some d => bool_decide (d ∉ dirs w)
  | None => false
  end.

(** [open(path, 'w', encoding='utf-8')]: the exception it raises, if any. *)
Definition open_for_writing (path : str) (w : world) : option exn :=
  match path_fault path with
  | Some e => Some e
  | None =>
    if bool_decide (path ∈ dirs w) then Some IsADirectoryError
    else if parent_missing path w then Some FileNotFoundError
    else os_refuses w path
  end.

(** What the dump of an entry into the file opened at [path] raises: a
    string of the entry that cannot be encoded, or what the writing raises
    for another reason. *)
Definition dump_fault (path : str) (entry : value) (w : world) : option exn :=
  if value_encodable entry then write_refuses w path entry
  else Some UnicodeEncodeError.

(** The file at [path] is created or truncated and holds [text] when it
    is closed. *)
Definition write_text (path text : str) (w : world) : world :=
  {| files := <[path := text]> (files w);
     dirs := dirs w;
     written := written w ++ [(path, text)];
     os_refuses := os_refuses w;
     write_refuses := write_refuses w;
     read_refuses := read_refuses w;
     flushed := flushed w |}.

(** [d[key]] on a [defaultdict(int)]: a missing key is inserted with [0]. *)
Definition defaultdict_getitem (d : gmap (list N) N) (key : str)
  : N * gmap (list N) N :=
  match d !! key with
  | Some n => (n, d)
  | None => (0, <[key := 0]> d)
  end.

(** The state of the loop of [split_dictionary]. *)
Record state : Type := State {
  seen_counts : gmap (list N) N;
  store : world
}.

Definition title_key : str := lit "title".

(** ** split_dictionary *)

Section Splitter.

(** The [json] module is used, not defined, by the script: [json.load]
    maps the text of the input file to a value or fails, and [json.dump]
    maps a value to text under its [ensure_ascii] and [indent] options. *)
Variable json_loads : str → option value.
Variable json_dumps : bool → option nat → value → str.

(** [with open(output_path, 'w', encoding='utf-8') as out_f:
    json.dump(entry, out_f, ensure_ascii=False, indent=2)]: when the path
    cannot be opened nothing changes; when the dump raises, the file keeps
    the part of the text that was flushed; otherwise the file holds the
    text.  A raise comes with the store it leaves. *)
Definition write_entry (output_path : str) (entry : value) (w : world)
  : (exn * world) + world :=
  match open_for_writing output_path w with
  | Some e => inl (e, w)
  | None =>
    let text := json_dumps false (Some 2%nat) entry in
    match dump_fault output_path entry w with
    | None => inr (write_text output_path text w)
    | Some e =>
      inl (e, write_text output_path (take (flushed w entry) text) w)
    end
  end.

(** One round of [for entry in entries]: the state after it, or the
    exception it raises with the state at that point. *)
Definition loop_body (output_dir : str) (entry : value) (st : state)
  : (exn * state) + state :=
  match value_get entry title_key with
  | inl e => inl (e, st)
  | inr title =>
    if negb (truthy title) then inr st
    else
      match sanitise_filename_of title with
      | inl e => inl (e, st)
      | inr safe_title =>
        let '(count, seen) := defaultdict_getitem (seen_counts st) safe_title in
        let filename :=
          if 0 <? count
          then safe_title ++ [underscore] ++ format_int count ++ dot_json
          else safe_title ++ dot_json in
        let '(n, seen) := defaultdict_getitem seen safe_title in
        let seen := <[safe_title := n + 1]> seen in
        let output_path := os_path_join output_dir filename in
        match write_entry output_path entry (store st) with
        | inl (e, w) => inl (e, {| seen_counts := seen; store := w |})
        | inr w => inr {| seen_counts := seen; store := w |}
        end
      end
  end.

(** The loop: the state it ends in, and the exception that ended it. *)
Fixpoint for_entries (output_dir : str) (entries : list value) (st : state)
  : state * option exn :=
  match entries with
  | [] => (st, None)
  | entry :: rest =>
    match loop_body output_dir entry st with
    | inl (e, st') => (st', Some e)
    | inr st' => for_entries output_dir rest st'
    end
  end.

Definition split_dictionary (input_file output_dir : str) (w : world)
  : world * option exn :=
  match os_makedirs output_dir w with
  | inl (e, w) => (w, Some e)
  | inr w =>
    match read_text input_file w with
    | inl e => (w, Some e)
    | inr text =>
      match json_loads text with
      | None => (w, Some JSONDecodeError)
      | Some entries =>
        let st := {| seen_counts := ∅; store := w |} in
        match py_iter entries with
        | inl e => (w, Some e)
        | inr items =>
          let '(st', r) := for_entries output_dir items st in
          (store st', r)
        end
      end
    end
  end.

End Splitter.

(** ** What the specification says of the loop *)

(** The sanitised title under which an entry is filed: that of its [title]
    when the entry is a mapping whose title is a non-empty string. *)
Definition filed_title (entry : value) : option str :=
  match entry with
  | VDict d =>
    match dict_get d title_key with
    | VStr [] => None
    | VStr t => Some (sanitise_filename t)
    | _ => None
    end
  | _ => None
  end.

(** The exception an item raises before any file is touched: an item
    that is not a mapping has no [get], a title that is true but not a
    string is refused by [re.sub]. *)
Definition entry_fault (entry : value) : option exn :=
  match entry with
  | VDict d =>
    match dict_get d title_key with
    | VStr _ => None
    | title => if truthy title then Some TypeError else None
    end
  | _ => Some AttributeError
  end.

(** How many of [prev] are filed under [safe]. *)
Definition occurrences (safe : str) (prev : list value) : N :=
  N.of_nat (length (filter (λ e, filed_title e = Some safe) prev)).

(** The name of the file of an occurrence: no suffix for the first one,
    [_k] for the one that has [k >= 1] occurrences before it. *)
Definition spec_filename (safe : str) (k : N) : str :=
  match k with
  | 0 => safe ++ dot_json
  | _ => safe ++ [underscore] ++ format_int k ++ dot_json
  end.

(** The path of the entry filed under [safe] that follows [prev]. *)
Definition assigned_path (output_dir : str) (prev : list value) (safe : str)
  : str :=
  os_path_join output_dir (spec_filename safe (occurrences safe prev)).

(** The value of an entry of the title-count table, [0] when absent. *)
Definition count_of (seen : gmap (list N) N) (safe : str) : N :=
  default 0 (seen !! safe).

(** The table counts the entries filed so far. *)
Definition counts_match (st : state) (prev : list value) : Prop :=
  ∀ s, count_of (seen_counts st) s = occurrences s prev.

(** Replaying a log of writes on a file map. *)
Definition replay (m : gmap (list N) (list N)) (log : list (str * str))
  : gmap (list N) (list N) :=
  foldl (λ m pw, <[fst pw := snd pw]> m) m log.

(** The text the last write of a log to [path] left there. *)
Fixpoint last_write (log : list (str * str)) (path : str) : option str :=
  match log with
  | [] => None
  | (q, t) :: rest =>
    match last_write rest path with
    | Some t' => Some t'
    | None => if bool_decide (q = path) then Some t else None
    end
  end.

(** A store after a log of writes. *)
Definition apply_log (log : list (str * str)) (w : world) : world :=
  {| files := replay (files w) log;
     dirs := dirs w;
     written := written w ++ log;
     os_refuses := os_refuses w;
     write_refuses := write_refuses w;
     read_refuses := read_refuses w;
     flushed := flushed w |}.

Section SplitterSpec.

Variable json_loads : str → option value.
Variable json_dumps : bool → option nat → value → str.

(** The writes of the loop over [entries] after [prev], in source order,
    and the exception that ends it: the loop stops at the first item that
    raises, at the first path that cannot be opened, and after the first
    dump that fails. *)
Fixpoint loop_trace (output_dir : str) (w : world) (prev entries : list value)
  : list (str * str) * option exn :=
  match entries with
  | [] => ([], None)
  | e :: rest =>
    match entry_fault e with
    | Some x => ([], Some x)
    | None =>
      match filed_title e with
      | None => loop_trace output_dir w (prev ++ [e]) rest
      | Some safe =>
        let path := assigned_path output_dir prev safe in
        let text := json_dumps false (Some 2%nat) e in
        match open_for_writing path w with
        | Some x => ([], Some x)
        | None =>
          match dump_fault path e w with
          | None =>
            let '(log, o) := loop_trace output_dir w (prev ++ [e]) rest in
            ((path, text) :: log, o)
          | Some x => ([(path, take (flushed w e) text)], Some x)
          end
        end
      end
    end
  end.

(** The write of an entry that follows [prev], when nothing raises. *)
Definition spec_write (output_dir : str) (prev : list value) (entry : value)
  : list (str * str) :=
  match filed_title entry with
  | Some safe =>
    [(assigned_path output_dir prev safe, json_dumps false (Some 2%nat) entry)]
  | None => []
  end.

(** The writes of a loop over [entries] after [prev] in which no round
    raises, in source order. *)
Fixpoint spec_writes (output_dir : str) (prev entries : list value)
  : list (str * str) :=
  match entries with
  | [] => []
  | e :: rest =>
    spec_write output_dir prev e ++ spec_writes output_dir (prev ++ [e]) rest
  end.

(** The writes and the end of a run of the script. *)
Definition run_trace (input_file output_dir : str) (w : world)
  : list (str * str) * option exn :=
  match os_makedirs output_dir w with
  | inl (e, _) => ([], Some e)
  | inr w1 =>
    match read_text input_file w1 with
    | inl e => ([], Some e)
    | inr text =>
      match json_loads text with
      | None => ([], Some JSONDecodeError)
      | Some v =>
        match py_iter v with
        | inl e => ([], Some e)
        | inr items => loop_trace output_dir w1 [] items
        end
      end
    end
  end.

End SplitterSpec.

(** The write of an entry whose sanitised title no other entry shares. *)
Definition own_write (json_dumps : bool → option nat → value → str)
    (output_dir : str) (entry : value) : option (str * str) :=
  match filed_title entry with
  | Some safe =>
    Some (os_path_join output_dir (safe ++ dot_json),
          json_dumps false (Some 2%nat) entry)
  | None => None
  end.

(** A file name the loop can build: no reserved character in it, and the
    extension at its end. *)
Definition plain_json_name (name : str) : Prop :=
  (∀ c, c ∈ name → c ∉ invalid_chars) ∧ dot_json `suffix_of` name.

(** ** A sample codec

    The theorems below hold for every [json_loads] and [json_dumps].  To
    run the script on concrete inputs, this section gives one instance: a
    writer that lays a value out as [json.dumps] does (separators, two-space
    indentation, string escapes), and a reader that knows the texts of a
    short list of documents.  Finite floats are printed by their exact
    decimal expansion. *)

Definition quote_char : char := 34.
Definition backslash : char := 92.

Definition hex_digit (n : N) : char :=
  if n <? 10 then 48 + n else 87 + n.

(** The escape [\uXXXX] of a 16-bit unit. *)
Definition escape_unit (n : N) : str :=
  [backslash; 117; hex_digit (n / 4096 mod 16); hex_digit (n / 256 mod 16);
   hex_digit (n / 16 mod 16); hex_digit (n mod 16)].

Definition escape_char (ensure_ascii : bool) (c : char) : str :=
  if c =? quote_char then [backslash; quote_char]
  else if c =? backslash then [backslash; backslash]
  else if c =? 8 then [backslash; 98]
  else if c =? 12 then [backslash; 102]
  else if c =? 10 then [backslash; 110]
  else if c =? 13 then [backslash; 114]
  else if c =? 9 then [backslash; 116]
  else if c <? 32 then escape_unit c
  else if negb ensure_ascii || (c <? 127) then [c]
  else if c <? 65536 then escape_unit c
  else escape_unit (55296 + (c - 65536) / 1024 mod 1024)
       ++ escape_unit (56320 + (c - 65536) mod 1024).

Definition encode_string (ensure_ascii : bool) (s : str) : str :=
  [quote_char] ++ flat_map (escape_char ensure_ascii) s ++ [quote_char].

Definition encode_int (z : Z) : str :=
  match z with
  | Z0 => lit "0"
  | Zpos p => format_int (Npos p)
  | Zneg p => lit "-" ++ format_int (Npos p)
  end.

Fixpoint strip_zeros (fuel : nat) (rev_digits : str) : str :=
  match fuel, rev_digits with
  | S fuel, 48 :: (_ :: _) as rest => strip_zeros fuel rest
  | _, _ => rev_digits
  end.

(** The decimal expansion of [m * 2^e]. *)
Definition encode_finite (m : positive) (e : Z) : str :=
  match e with
  | Zneg k =>
    let k := Pos.to_nat k in
    let digits := format_int (Npos m * 5 ^ N.of_nat k) in
    let digits := replicate (S k - length digits) 48 ++ digits in
    let whole := take (length digits - k) digits in
    let frac := drop (length digits - k) digits in
    whole ++ lit "." ++ reverse (strip_zeros k (reverse frac))
  | _ => format_int (Npos m * 2 ^ Z.to_N e) ++ lit ".0"
  end.

Definition encode_float (f : spec_float) : str :=
  match f with
  | S754_zero s => (if s then lit "-" else []) ++ lit "0.0"
  | S754_infinity s => (if s then lit "-" else []) ++ lit "Infinity"
  | S754_nan => lit "NaN"
  | S754_finite s m e => (if s then lit "-" else []) ++ encode_finite m e
  end.

Fixpoint join_str (separator : str) (parts : list str) : str :=
  match parts with
  | [] => []
  | [x] => x
  | x :: rest => x ++ separator ++ join_str separator rest
  end.

(** The line break and indentation in front of an item at [level]. *)
Definition newline_indent (indent : option nat) (level : nat) : str :=
  match indent with
  | Some n => 10 :: replicate (n * level) 32
  | None => []
  end.

Definition item_separator (indent : option nat) (level : nat) : str :=
  match indent with
  | Some _ => lit "," ++ newline_indent indent level
  | None => lit ", "
  end.

Fixpoint sample_dumps_at (ensure_ascii : bool) (indent : option nat)
    (level : nat) (v : value) : str :=
  match v with
  | VNone => lit "null"
  | VBool true => lit "true"
  | VBool false => lit "false"
  | VInt z => encode_int z
  | VFloat f => encode_float f
  | VStr s => encode_string ensure_ascii s
  | VList [] => lit "[]"
  | VList l =>
    lit "[" ++ newline_indent indent (S level)
    ++ join_str (item_separator indent (S level))
         (map (sample_dumps_at ensure_ascii indent (S level)) l)
    ++ newline_indent indent level ++ lit "]"
  | VDict [] => lit "{}"
  | VDict d =>
    lit "{" ++ newline_indent indent (S level)
    ++ join_str (item_separator indent (S level))
         (map (λ kv, let '(k, x) := kv in
                     encode_string ensure_ascii k ++ lit ": "
                     ++ sample_dumps_at ensure_ascii indent (S level) x) d)
    ++ newline_indent indent level ++ lit "}"
  end.

Definition sample_dumps (ensure_ascii : bool) (indent : option nat) (v : value)
  : str := sample_dumps_at ensure_ascii indent 0 v.

(** Entries used in the examples. *)
Definition entry_of (title : str) (n : Z) : value :=
  VDict [(title_key, VStr title); (lit "n", VInt n)].

Definition apple_entries : list value :=
  [entry_of (lit "Apple") 1; entry_of (lit "Apple") 2;
   entry_of (lit "Apple") 3].

Definition apples : value := VList apple_entries.

(** Two entries titled [A] and one titled [A_1]. *)
Definition colliding_entries : list value :=
  [entry_of (lit "A") 1; entry_of (lit "A") 2; entry_of (lit "A_1") 3].

Definition colliding : value := VList colliding_entries.

(** An entry without a title and one whose title is the empty string,
    between two entries that are filed under one name. *)
Definition gap_entries : list value :=
  [entry_of (lit "a/b") 1; VDict [(lit "pos", VStr (lit "N"))];
   entry_of [] 2; entry_of (lit "a_b") 3].

Definition not_an_array : value :=
  VDict [(lit "not", VStr (lit "an array"))].

Definition sample_documents : list value :=
  [apples; colliding; not_an_array;
   VDict []; VStr []; VInt 5; VNone; VList []].

(** The reader: it knows the compact and the indented text of each sample
    document, and takes every other text for malformed. *)
Definition sample_loads (text : str) : option value :=
  find (λ v, bool_decide (sample_dumps false None v = text)
             || bool_decide (sample_dumps false (Some 2%nat) v = text))
       sample_documents.

(** A state to start the loop in: an empty table, and a store that holds
    the output directory only. *)
Definition fresh_state : state :=
  {| seen_counts := ∅;
     store := {| files := ∅; dirs := {[ lit "entries" ]}; written := [];
                 os_refuses := λ _, None; write_refuses := λ _ _, None;
                 read_refuses := λ _, None;
                 flushed := λ _, 0%nat |} |}.

(** A store that holds the input file only. *)
Definition input_path : str := lit "dict-revised.json".

Definition store_with (text : str) : world :=
  {| files := {[ input_path := text ]}; dirs := ∅; written := [];
     os_refuses := λ _, None; write_refuses := λ _ _, None;
     read_refuses := λ _, None;
     flushed := λ _, 0%nat |}.

(** A reader that knows the compact text of the documents of a list. *)
Definition loads_from (documents : list value) (text : str) : option value :=
  find (λ v, bool_decide (sample_dumps false None v = text)) documents.

(** A reader that knows the compact text of the documents of a list in
    which every character beyond ASCII is escaped. *)
Definition loads_escaped (documents : list value) (text : str) : option value :=
  find (λ v, bool_decide (sample_dumps true None v = text)) documents.

(** Water, and fire with a slash in its title. *)
Definition water : value :=
  VDict [(title_key, VStr [27700]); (lit "pos", VStr (lit "N"))].

Definition fire : value :=
  VDict [(title_key, VStr ([28779] ++ lit "/Fire")); (lit "pos", VStr (lit "N"))].

Definition elements : value := VList [water; fire].


(** An Apple entry with a lone surrogate in another field, in front of
    two plain ones. *)
Definition marked_apple : value :=
  VDict [(title_key, VStr (lit "Apple")); (lit "x", VStr [55296])].

Definition marked_apples : value :=
  VList [marked_apple; entry_of (lit "Apple") 2; entry_of (lit "Apple") 3].

(** A store that holds the input file only, where a dump that fails
    leaves [n] characters in the file. *)
Definition store_flushing (n : nat) (text : str) : world :=
  {| files := {[ input_path := text ]}; dirs := ∅; written := [];
     os_refuses := λ _, None; write_refuses := λ _ _, None;
     read_refuses := λ _, None;
     flushed := λ _, n |}.

(** A state to start the loop in, with the output directory, where a dump
    that fails leaves [n] characters in the file. *)
Definition flushing_state (n : nat) : state :=
  {| seen_counts := ∅;
     store := {| files := ∅; dirs := {[ lit "entries" ]}; written := [];
                 os_refuses := λ _, None; write_refuses := λ _ _, None;
                 read_refuses := λ _, None;
                 flushed := λ _, n |} |}.

(** * Properties *)

(** ** The sanitiser *)

Example sanitise_fire :
  sanitise_filename ([28779] ++ lit "/Fire") = [28779] ++ lit "_Fire".
Proof. reflexivity. Qed.

Example sanitise_edges :
  sanitise_filename (lit "  a:b  c?	 ") = lit "a_b  c_".
Proof. reflexivity. Qed.

Example sanitise_all_reserved : sanitise_filename (lit " <|> ") = lit "___".
Proof. reflexivity. Qed.

Example sanitise_blank : sanitise_filename (lit "   ") = [].
Proof. reflexivity. Qed.

(** *** Facts about stripping *)

Lemma lstrip_split (s : str) :
  ∃ pre, s = pre ++ lstrip s ∧ Forall (λ c, Py_UNICODE_ISSPACE c = true) pre.
Proof.
  induction s as [|c s IH]; simpl.
  - exists []. split; [reflexivity | constructor].
  - destruct (Py_UNICODE_ISSPACE c) eqn:Hc.
    + destruct IH as (pre & Heq & Hpre).
      exists (c :: pre). split; [simpl; congruence | by constructor].
    + exists []. split; [reflexivity | constructor].
Qed.

Lemma lstrip_head (s : str) (c : char) :
  head (lstrip s) = Some c → Py_UNICODE_ISSPACE c = false.
Proof.
  induction s as [|a s IH]; simpl; [discriminate|].
  destruct (Py_UNICODE_ISSPACE a) eqn:Ha; [exact IH|].
  simpl. intros [= <-]. exact Ha.
Qed.

Lemma rstrip_split (s : str) :
  ∃ post, s = rstrip s ++ post ∧ Forall (λ c, Py_UNICODE_ISSPACE c = true) post.
Proof.
  unfold rstrip. destruct (lstrip_split (reverse s)) as (pre & Heq & Hpre).
  exists (reverse pre). split.
  - rewrite <- reverse_app, <- Heq. by rewrite reverse_involutive.
  - by apply Forall_reverse.
Qed.

Lemma rstrip_last (s : str) (c : char) :
  last (rstrip s) = Some c → Py_UNICODE_ISSPACE c = false.
Proof.
  unfold rstrip. rewrite last_reverse. apply lstrip_head.
Qed.

(** Stripping on the right keeps a first character that is not blank. *)
Lemma rstrip_head (s : str) (c : char) :
  (∀ a, head s = Some a → Py_UNICODE_ISSPACE a = false) →
  head (rstrip s) = Some c → Py_UNICODE_ISSPACE c = false.
Proof.
  intros Hs Hc. destruct (rstrip_split s) as (post & Heq & Hpost).
  destruct (rstrip s) as [|a r] eqn:Hr; [discriminate|].
  simpl in Hc. injection Hc as ->. apply Hs. by rewrite Heq.
Qed.

Lemma str_strip_split (s : str) :
  ∃ pre post,
    s = pre ++ str_strip s ++ post
    ∧ Forall (λ c, Py_UNICODE_ISSPACE c = true) pre
    ∧ Forall (λ c, Py_UNICODE_ISSPACE c = true) post.
Proof.
  unfold str_strip.
  destruct (lstrip_split s) as (pre & Heq & Hpre).
  destruct (rstrip_split (lstrip s)) as (post & Heq' & Hpost).
  exists pre, post. split; [|done].
  rewrite <- Heq'. exact Heq.
Qed.

Lemma str_strip_head (s : str) (c : char) :
  head (str_strip s) = Some c → Py_UNICODE_ISSPACE c = false.
Proof. unfold str_strip. apply rstrip_head. intros a. apply lstrip_head. Qed.

Lemma str_strip_last (s : str) (c : char) :
  last (str_strip s) = Some c → Py_UNICODE_ISSPACE c = false.
Proof. unfold str_strip. apply rstrip_last. Qed.

(** *** Facts about the substitution *)

Lemma re_sub_class_single (cls : list char) (r : char) (s : str) :
  re_sub_class cls [r] s = map (λ c, if class_matches cls c then r else c) s.
Proof.
  unfold re_sub_class. induction s as [|c s IH]; simpl; [done|].
  rewrite IH. by destruct (class_matches cls c).
Qed.

Lemma class_matches_elem (cls : list char) (c : char) :
  class_matches cls c = true ↔ c ∈ cls.
Proof.
  unfold class_matches. rewrite existsb_exists. split.
  - intros (x & Hin & Heq). apply N.eqb_eq in Heq. subst.
    by apply list_elem_of_In.
  - intros Hin. exists c. split; [by apply list_elem_of_In | apply N.eqb_refl].
Qed.

Lemma spec_replace_not_reserved (c : char) :
  class_matches invalid_chars (spec_replace c) = false.
Proof.
  unfold spec_replace.
  destruct (class_matches invalid_chars c) eqn:Hc; [reflexivity | exact Hc].
Qed.

Lemma sanitise_filename_map (name : str) :
  sanitise_filename name = str_strip (map spec_replace name).
Proof. unfold sanitise_filename. by rewrite re_sub_class_single. Qed.

Lemma sanitise_filename_no_reserved (name : str) (c : char) :
  c ∈ sanitise_filename name → c ∉ invalid_chars.
Proof.
  rewrite sanitise_filename_map. intros Hc Hbad.
  apply class_matches_elem in Hbad.
  destruct (str_strip_split (map spec_replace name)) as (pre & post & Heq & _).
  assert (Hin : c ∈ map spec_replace name).
  { rewrite Heq. set_solver. }
  apply list_elem_of_fmap in Hin as (c0 & -> & _).
  by rewrite spec_replace_not_reserved in Hbad.
Qed.

(** C1: for every string, the sanitiser returns the string in which every
    reserved character was replaced by an underscore, without its leading and
    trailing whitespace: the replaced string is the result between two runs
    of whitespace, the result neither starts nor ends with whitespace, holds
    no reserved character, and each of its characters is the character of the
    input at the same place, unchanged unless it was reserved. *)
Theorem sanitise_filename_correct (name : str) :
  ∃ pre post : str,
    map spec_replace name = pre ++ sanitise_filename name ++ post
    ∧ Forall (λ c, Py_UNICODE_ISSPACE c = true) pre
    ∧ Forall (λ c, Py_UNICODE_ISSPACE c = true) post
    ∧ (∀ c, head (sanitise_filename name) = Some c → Py_UNICODE_ISSPACE c = false)
    ∧ (∀ c, last (sanitise_filename name) = Some c → Py_UNICODE_ISSPACE c = false)
    ∧ (∀ c, c ∈ sanitise_filename name → c ∉ invalid_chars)
    ∧ (∀ (i : nat) c, sanitise_filename name !! i = Some c →
         ∃ c0, name !! (length pre + i)%nat = Some c0
               ∧ c = (if class_matches invalid_chars c0 then underscore else c0)).
Proof.
  rewrite sanitise_filename_map.
  destruct (str_strip_split (map spec_replace name)) as (pre & post & Heq & Hpre & Hpost).
  exists pre, post. repeat split; try done.
  - apply str_strip_head.
  - apply str_strip_last.
  - intros c Hc. apply (sanitise_filename_no_reserved name).
    by rewrite sanitise_filename_map.
  - intros i c Hi.
    assert (Hl : map spec_replace name !! (length pre + i)%nat = Some c).
    { rewrite Heq. rewrite lookup_app_r by lia.
      replace (length pre + i - length pre)%nat with i by lia.
      by apply lookup_app_l_Some. }
    change (map spec_replace name) with (spec_replace <$> name) in Hl.
    rewrite list_lookup_fmap in Hl.
    destruct (name !! (length pre + i)%nat) as [c0|]; [|discriminate].
    exists c0. split; [done|]. simpl in Hl. by injection Hl as <-.
Qed.

(** ** Formatting and file names *)

Lemma uint_chars_inj (u u' : Decimal.uint) :
  uint_chars u = uint_chars u' → u = u'.
Proof.
  revert u'. induction u as [|u IH|u IH|u IH|u IH|u IH|u IH|u IH|u IH|u IH|u IH];
    intros [|v|v|v|v|v|v|v|v|v|v]; simpl; intros H;
    try discriminate; try reflexivity;
    injection H as H; f_equal; by apply IH.
Qed.

Lemma format_int_inj (n m : N) : format_int n = format_int m → n = m.
Proof.
  unfold format_int. intros H. apply uint_chars_inj in H.
  by apply DecimalN.Unsigned.to_uint_inj.
Qed.

Lemma spec_filename_inj (safe : str) (k k' : N) :
  spec_filename safe k = spec_filename safe k' → k = k'.
Proof.
  unfold spec_filename.
  destruct k as [|p], k' as [|p']; intros H; try reflexivity;
    apply app_inv_head in H; try discriminate.
  simpl in H. injection H as H. apply app_inv_tail in H.
  by apply format_int_inj.
Qed.

(** From the second occurrence on the name carries the suffix the loop
    builds for a positive count. *)
Lemma spec_filename_count (safe : str) (count : N) :
  (if 0 <? count
   then safe ++ [underscore] ++ format_int count ++ dot_json
   else safe ++ dot_json) = spec_filename safe count.
Proof. by destruct count. Qed.

Lemma sanitise_filename_no_slash (t : str) :
  head (sanitise_filename t) ≠ Some 47.
Proof.
  intros H. apply (sanitise_filename_no_reserved t 47).
  - destruct (sanitise_filename t); [discriminate|].
    simpl in H. injection H as ->. left.
  - unfold invalid_chars. set_solver.
Qed.

(** ** Counting and logs *)

Lemma occurrences_snoc (safe : str) (prev : list value) (e : value) :
  occurrences safe (prev ++ [e])
  = occurrences safe prev + (if bool_decide (filed_title e = Some safe) then 1 else 0).
Proof.
  unfold occurrences. rewrite filter_app, length_app.
  rewrite filter_cons, filter_nil.
  case_bool_decide; destruct (decide (filed_title e = Some safe)); try done;
    simpl; lia.
Qed.

Lemma occurrences_nil (safe : str) : occurrences safe [] = 0.
Proof. reflexivity. Qed.

Lemma count_of_insert (seen : gmap (list N) N) (safe s : str) (n : N) :
  count_of (<[safe := n]> seen) s
  = if bool_decide (safe = s) then n else count_of seen s.
Proof.
  unfold count_of. case_bool_decide as H.
  - subst. by rewrite lookup_insert_eq.
  - by rewrite lookup_insert_ne.
Qed.

Lemma replay_app (m : gmap (list N) (list N)) (l1 l2 : list (str * str)) :
  replay m (l1 ++ l2) = replay (replay m l1) l2.
Proof. unfold replay. by rewrite foldl_app. Qed.

(** ** Paths *)

Lemma filed_title_sanitised (entry : value) (safe : str) :
  filed_title entry = Some safe →
  ∃ d t, entry = VDict d ∧ dict_get d title_key = VStr t ∧ t ≠ []
         ∧ safe = sanitise_filename t.
Proof.
  unfold filed_title. destruct entry as [| | | | |l|d]; try discriminate.
  destruct (dict_get d title_key) as [|b|z|f|s|l|d'] eqn:Ht; try discriminate.
  destruct s as [|c t]; [discriminate|]. intros [= <-].
  exists d, (c :: t). done.
Qed.

Lemma spec_filename_relative (safe : str) (k : N) :
  head safe ≠ Some sep → startswith_sep (spec_filename safe k) = false.
Proof.
  intros Hs. unfold spec_filename.
  destruct safe as [|c safe].
  - by destruct k.
  - assert (Hc : (c =? sep) = false).
    { apply N.eqb_neq. intros ->. by apply Hs. }
    by destruct k.
Qed.

Lemma filed_filename_relative (entry : value) (safe : str) (k : N) :
  filed_title entry = Some safe → startswith_sep (spec_filename safe k) = false.
Proof.
  intros (d & t & _ & _ & _ & ->)%filed_title_sanitised.
  apply spec_filename_relative, sanitise_filename_no_slash.
Qed.

Lemma os_path_join_relative (path b : str) :
  startswith_sep b = false → os_path_join path b = path ++ joint path ++ b.
Proof.
  intros Hb. unfold os_path_join, joint. rewrite Hb.
  by destruct (bool_decide (path = []) || endswith_sep path).
Qed.

Lemma os_path_join_inj (path b b' : str) :
  startswith_sep b = false → startswith_sep b' = false →
  os_path_join path b = os_path_join path b' → b = b'.
Proof.
  intros Hb Hb'. rewrite !os_path_join_relative by done.
  intros H. by do 2 apply app_inv_head in H.
Qed.

(** Two occurrences of one sanitised title get different paths. *)
Lemma filed_paths_differ (output_dir : str) (entry : value) (safe : str) (k k' : N) :
  filed_title entry = Some safe → k ≠ k' →
  os_path_join output_dir (spec_filename safe k)
  ≠ os_path_join output_dir (spec_filename safe k').
Proof.
  intros Ht Hk H. apply Hk.
  apply os_path_join_inj in H; eauto using filed_filename_relative.
  by apply spec_filename_inj in H.
Qed.

Lemma occurrences_app (safe : str) (l1 l2 : list value) :
  occurrences safe (l1 ++ l2) = occurrences safe l1 + occurrences safe l2.
Proof. unfold occurrences. rewrite filter_app, length_app. lia. Qed.

Lemma occurrences_cons (safe : str) (e : value) (l : list value) :
  occurrences safe (e :: l)
  = (if bool_decide (filed_title e = Some safe) then 1 else 0) + occurrences safe l.
Proof.
  unfold occurrences. rewrite filter_cons.
  case_bool_decide; destruct (decide (filed_title e = Some safe)); try done;
    simpl; lia.
Qed.

Lemma replay_lookup (m : gmap (list N) (list N)) (log : list (str * str))
    (p : str) :
  replay m log !! p
  = match last_write log p with Some t => Some t | None => m !! p end.
Proof.
  revert m. induction log as [|[q t] log IH]; intros m; [done|].
  change (replay m ((q, t) :: log)) with (replay (<[q := t]> m) log).
  rewrite IH. simpl. destruct (last_write log p); [done|].
  case_bool_decide as Hq.
  - subst. apply lookup_insert_eq.
  - by apply lookup_insert_ne.
Qed.


Lemma last_write_elem (log : list (str * str)) (p t : str) :
  last_write log p = Some t → (p, t) ∈ log.
Proof.
  induction log as [|[q u] log IH]; simpl; [discriminate|].
  destruct (last_write log p) as [t'|] eqn:Hl.
  - intros [= <-]. right. by apply IH.
  - case_bool_decide as Hq; [|discriminate]. intros [= <-]. subst. left.
Qed.


Lemma truthy_false_iff (v : value) :
  truthy v = false
  ↔ v ∈ [VNone; VBool false; VInt 0; VFloat (S754_zero false);
         VFloat (S754_zero true); VStr []; VList []; VDict []].
Proof.
  rewrite !elem_of_cons, elem_of_nil. split.
  - destruct v as [|[]|[]|[[]| | |]|[]|[]|[]]; simpl; try discriminate; tauto.
  - intros H. repeat destruct H as [->|H]; try reflexivity. destruct H.
Qed.

Lemma uint_chars_digit (u : Decimal.uint) (c : char) :
  c ∈ uint_chars u → 48 ≤ c ≤ 57.
Proof.
  induction u as [|u IH|u IH|u IH|u IH|u IH|u IH|u IH|u IH|u IH|u IH]; simpl;
    rewrite ?elem_of_nil, ?elem_of_cons; try tauto;
    intros [->|H]; try lia; by apply IH.
Qed.

Lemma digit_not_reserved (c : char) : 48 ≤ c ≤ 57 → c ∉ invalid_chars.
Proof.
  intros Hc H. unfold invalid_chars in H.
  rewrite !elem_of_cons, elem_of_nil in H.
  repeat destruct H as [->|H]; first [lia | destruct H].
Qed.

Lemma dot_json_not_reserved (c : char) : c ∈ dot_json → c ∉ invalid_chars.
Proof.
  intros Hc H. apply class_matches_elem in H.
  unfold dot_json in Hc. cbn in Hc.
  rewrite !elem_of_cons, elem_of_nil in Hc.
  repeat destruct Hc as [->|Hc]; try discriminate. destruct Hc.
Qed.

Lemma underscore_not_reserved : underscore ∉ invalid_chars.
Proof. intros H. by apply class_matches_elem in H. Qed.

Lemma spec_filename_plain (safe : str) (k : N) :
  (∀ c, c ∈ safe → c ∉ invalid_chars) → plain_json_name (spec_filename safe k).
Proof.
  intros Hsafe. split.
  - intros c. unfold spec_filename. destruct k as [|p].
    + rewrite elem_of_app. intros [H|H]; [by apply Hsafe|].
      by apply dot_json_not_reserved.
    + rewrite !elem_of_app, list_elem_of_singleton.
      intros [H|[->|[H|H]]].
      * by apply Hsafe.
      * apply underscore_not_reserved.
      * by eapply digit_not_reserved, uint_chars_digit.
      * by apply dot_json_not_reserved.
  - unfold spec_filename. destruct k as [|p].
    + by apply suffix_app_r.
    + by do 3 apply suffix_app_r.
Qed.

Lemma filed_filename_plain (entry : value) (safe : str) (k : N) :
  filed_title entry = Some safe → plain_json_name (spec_filename safe k).
Proof.
  intros (d & t & _ & _ & _ & ->)%filed_title_sanitised.
  apply spec_filename_plain, sanitise_filename_no_reserved.
Qed.

(** ** The store under a log of writes *)

Lemma apply_log_nil (w : world) : apply_log [] w = w.
Proof. destruct w. unfold apply_log. simpl. by rewrite app_nil_r. Qed.

Lemma apply_log_app (l1 l2 : list (str * str)) (w : world) :
  apply_log l2 (apply_log l1 w) = apply_log (l1 ++ l2) w.
Proof. unfold apply_log. simpl. by rewrite replay_app, <- app_assoc. Qed.

Lemma write_text_log (path text : str) (w : world) :
  write_text path text w = apply_log [(path, text)] w.
Proof. reflexivity. Qed.

(** ** One round of the loop *)

Section LoopFacts.

Variable json_dumps : bool → option nat → value → str.

(** Reading the table and adding one to what was read. *)
Lemma defaultdict_increment (seen : gmap (list N) N) (safe : str) :
  let '(count, seen1) := defaultdict_getitem seen safe in
  let '(n, seen2) := defaultdict_getitem seen1 safe in
  count = count_of seen safe
  ∧ <[safe := n + 1]> seen2 = <[safe := count_of seen safe + 1]> seen.
Proof.
  unfold defaultdict_getitem, count_of.
  destruct (seen !! safe) as [n|] eqn:Hs; simpl.
  - rewrite Hs. done.
  - rewrite lookup_insert_eq. split; [done|]. by rewrite insert_insert_eq.
Qed.

Lemma loop_body_fault (output_dir : str) (entry : value) (st : state) (x : exn) :
  entry_fault entry = Some x →
  loop_body json_dumps output_dir entry st = inl (x, st).
Proof.
  unfold entry_fault, loop_body.
  destruct entry as [| | | | |l|d]; simpl; try (by intros [= <-]).
  destruct (dict_get d title_key) as [|b|z|f|s|l|d'] eqn:Ht; simpl;
    try discriminate.
  - destruct b; simpl; [by intros [= <-] | discriminate].
  - destruct (z =? 0)%Z; simpl; [discriminate | by intros [= <-]].
  - destruct f; simpl; try discriminate; by intros [= <-].
  - destruct l; simpl; [discriminate | by intros [= <-]].
  - destruct d'; simpl; [discriminate | by intros [= <-]].
Qed.

Lemma loop_body_skip (output_dir : str) (entry : value) (st : state) :
  entry_fault entry = None → filed_title entry = None →
  loop_body json_dumps output_dir entry st = inr st.
Proof.
  unfold entry_fault, filed_title, loop_body.
  destruct entry as [| | | | |l|d]; simpl; try discriminate.
  destruct (dict_get d title_key) as [|b|z|f|s|l|d'] eqn:Ht; simpl;
    try done.
  - by destruct b.
  - by destruct (z =? 0)%Z.
  - by destruct f.
  - by destruct s.
  - by destruct l.
  - by destruct d'.
Qed.

(** The round of an entry that is filed: the table entry of its sanitised
    title grows by one, then the entry is written at the path of its
    index. *)
Lemma loop_body_filed (output_dir : str) (entry : value) (st : state) (safe : str) :
  filed_title entry = Some safe →
  loop_body json_dumps output_dir entry st
  = let seen := <[safe := count_of (seen_counts st) safe + 1]> (seen_counts st) in
    match write_entry json_dumps
            (os_path_join output_dir
               (spec_filename safe (count_of (seen_counts st) safe)))
            entry (store st) with
    | inl (e, w) => inl (e, {| seen_counts := seen; store := w |})
    | inr w => inr {| seen_counts := seen; store := w |}
    end.
Proof.
  unfold filed_title, loop_body.
  destruct entry as [| | | | |l|d]; simpl; try discriminate.
  destruct (dict_get d title_key) as [|b|z|f|s|l|d'] eqn:Ht; simpl;
    try discriminate.
  destruct s as [|c t]; [discriminate|]. intros [= <-]. simpl.
  pose proof (defaultdict_increment (seen_counts st) (sanitise_filename (c :: t))) as H.
  destruct (defaultdict_getitem (seen_counts st) (sanitise_filename (c :: t)))
    as [count seen1].
  destruct (defaultdict_getitem seen1 (sanitise_filename (c :: t))) as [n seen2].
  destruct H as [-> ->]. by rewrite spec_filename_count.
Qed.

Lemma write_entry_refused (path : str) (entry : value) (w : world) (x : exn) :
  open_for_writing path w = Some x →
  write_entry json_dumps path entry w = inl (x, w).
Proof. intros H. unfold write_entry. by rewrite H. Qed.

Lemma write_entry_done (path : str) (entry : value) (w : world) :
  open_for_writing path w = None → dump_fault path entry w = None →
  write_entry json_dumps path entry w
  = inr (write_text path (json_dumps false (Some 2%nat) entry) w).
Proof. intros H He. unfold write_entry. by rewrite H, He. Qed.

Lemma write_entry_cut (path : str) (entry : value) (w : world) (x : exn) :
  open_for_writing path w = None → dump_fault path entry w = Some x →
  write_entry json_dumps path entry w
  = inl (x,
         write_text path
           (take (flushed w entry) (json_dumps false (Some 2%nat) entry)) w).
Proof. intros H He. unfold write_entry. by rewrite H, He. Qed.

End LoopFacts.

(** ** The loop and its trace *)

Section LoopTrace.

Variable json_dumps : bool → option nat → value → str.

(** The trace looks at the directories and at the answers of the
    operating system only, and writes leave those as they are. *)
Lemma loop_trace_log (output_dir : str) (log : list (str * str)) (w : world)
    (prev entries : list value) :
  loop_trace json_dumps output_dir (apply_log log w) prev entries
  = loop_trace json_dumps output_dir w prev entries.
Proof.
  revert prev. induction entries as [|e rest IH]; intros prev; simpl; [done|].
  destruct (entry_fault e); [done|].
  destruct (filed_title e); [|apply IH].
  change (open_for_writing (assigned_path output_dir prev l) (apply_log log w))
    with (open_for_writing (assigned_path output_dir prev l) w).
  destruct (open_for_writing _ w); [done|].
  change (dump_fault (assigned_path output_dir prev l) e (apply_log log w))
    with (dump_fault (assigned_path output_dir prev l) e w).
  destruct (dump_fault _ e w); [done|].
  by rewrite IH.
Qed.

Lemma for_entries_trace (output_dir : str) (entries prev : list value) (st : state) :
  counts_match st prev →
  ∃ seen,
    for_entries json_dumps output_dir entries st
    = ({| seen_counts := seen;
          store := apply_log
                     (fst (loop_trace json_dumps output_dir (store st) prev entries))
                     (store st) |},
       snd (loop_trace json_dumps output_dir (store st) prev entries))
    ∧ (snd (loop_trace json_dumps output_dir (store st) prev entries) = None →
       counts_match {| seen_counts := seen; store := store st |}
         (prev ++ entries)).
Proof.
  revert prev st. induction entries as [|e rest IH]; intros prev st Hinv.
  - exists (seen_counts st). simpl. rewrite apply_log_nil, app_nil_r.
    by destruct st.
  - cbn [for_entries loop_trace].
    destruct (entry_fault e) as [x|] eqn:Hf.
    { rewrite (loop_body_fault _ _ _ _ _ Hf). exists (seen_counts st).
      simpl. rewrite apply_log_nil. split; [by destruct st | done]. }
    destruct (filed_title e) as [safe|] eqn:Ht.
    + rewrite (loop_body_filed _ _ _ _ _ Ht). cbn zeta.
      unfold assigned_path. rewrite <- (Hinv safe).
      set (path := os_path_join output_dir
                     (spec_filename safe (count_of (seen_counts st) safe))).
      set (seen1 := <[safe := count_of (seen_counts st) safe + 1]> (seen_counts st)).
      destruct (open_for_writing path (store st)) as [x|] eqn:Ho.
      { rewrite (write_entry_refused _ _ _ _ _ Ho). exists seen1.
        simpl. rewrite apply_log_nil. done. }
      destruct (dump_fault path e (store st)) as [y|] eqn:He.
      { rewrite (write_entry_cut _ _ _ _ _ Ho He). exists seen1. done. }
      * rewrite (write_entry_done _ _ _ _ Ho He).
        set (st' := {| seen_counts := seen1; store := write_text path _ (store st) |}).
        assert (Hinv' : counts_match st' (prev ++ [e])).
        { intros s. unfold st', seen1. simpl.
          rewrite count_of_insert, occurrences_snoc.
          rewrite Ht, <- !Hinv. destruct (decide (safe = s)) as [->|Hne].
          - by rewrite !bool_decide_eq_true_2.
          - rewrite !bool_decide_eq_false_2 by congruence. lia. }
        destruct (IH (prev ++ [e]) st' Hinv') as (seen & Hrun & Hcount).
        exists seen. unfold st' in Hrun, Hcount. simpl in Hrun, Hcount.
        rewrite write_text_log, loop_trace_log in Hrun, Hcount.
        rewrite apply_log_app in Hrun.
        destruct (loop_trace json_dumps output_dir (store st) (prev ++ [e]) rest)
          as [log o].
        simpl in *. split; [exact Hrun|].
        intros Ho'. rewrite <- app_assoc in Hcount. by apply Hcount.
    + rewrite (loop_body_skip _ _ _ _ Hf Ht).
      assert (Hinv' : counts_match st (prev ++ [e])).
      { intros s. rewrite occurrences_snoc, Ht.
        case_bool_decide; [congruence|]. rewrite Hinv. lia. }
      destruct (IH (prev ++ [e]) st Hinv') as (seen & Hrun & Hcount).
      exists seen. split; [exact Hrun|].
      intros Ho'. rewrite <- app_assoc in Hcount. by apply Hcount.
Qed.

End LoopTrace.

(** ** The script and its trace *)

Lemma mkdir_each_made (ps : list str) (w w1 : world) :
  mkdir_each ps w = inr w1 →
  w1 = {| files := files w;
          dirs := list_to_set ps ∪ dirs w;
          written := written w;
          os_refuses := os_refuses w;
          write_refuses := write_refuses w;
          read_refuses := read_refuses w;
          flushed := flushed w |}
  ∧ (∀ p, p ∈ ps → path_fault p = None).
Proof.
  revert w. induction ps as [|p rest IH]; intros w; simpl.
  - intros [= <-]. split; [|by intros p H%elem_of_nil].
    destruct w; simpl. f_equal. by rewrite (left_id_L ∅ (∪)).
  - destruct (path_fault p) eqn:Hp; [discriminate|].
    case_bool_decide as Hd.
    + intros [-> Hall]%IH. split.
      * f_equal. simpl. apply leibniz_equiv. intros x.
        rewrite !elem_of_union, elem_of_singleton. split; [tauto|].
        intros [[->|?]|?]; tauto.
      * intros q [->|Hq]%elem_of_cons; [done | by apply Hall].
    + case_bool_decide; [by destruct rest|].
      destruct (os_refuses w p); [discriminate|].
      intros [-> Hall]%IH. simpl. split.
      * f_equal. apply leibniz_equiv. intros x.
        rewrite !elem_of_union, elem_of_singleton. tauto.
      * intros q [->|Hq]%elem_of_cons; [done | by apply Hall].
Qed.

(** What a raise of the making of directories leaves: the files and the
    log as they were, no directory less, and the same raise again. *)
Lemma mkdir_each_raise (ps : list str) (w w' : world) (e : exn) :
  mkdir_each ps w = inl (e, w') →
  files w' = files w ∧ written w' = written w
  ∧ os_refuses w' = os_refuses w ∧ read_refuses w' = read_refuses w
  ∧ dirs w ⊆ dirs w'
  ∧ mkdir_each ps w' = inl (e, w').
Proof.
  revert w. induction ps as [|p rest IH]; intros w; [discriminate|].
  cbn [mkdir_each].
  destruct (path_fault p) eqn:Hp.
  { by intros [= <- <-]. }
  case_bool_decide as Hd.
  - intros H. destruct (IH _ H) as (Hf & Hw & Ho & Hr & Hsub & Hagain).
    repeat split; try done.
    rewrite bool_decide_eq_true_2 by (by apply Hsub). exact Hagain.
  - case_bool_decide as Hfile.
    { destruct rest as [|q rest']; intros [= <- <-];
        (repeat split; try done);
        rewrite (bool_decide_eq_false_2 (p ∈ dirs w)) by done;
        by rewrite bool_decide_eq_true_2. }
    destruct (os_refuses w p) eqn:Hos.
    { intros [= <- <-]. repeat split; try done.
      rewrite !bool_decide_eq_false_2 by done.
      by rewrite Hos. }
    intros H. destruct (IH _ H) as (Hf & Hw & Ho & Hr & Hsub & Hagain).
    simpl in Hf, Hw, Ho, Hr, Hsub. repeat split; try done.
    + intros x Hx. apply Hsub, elem_of_union. by right.
    + rewrite bool_decide_eq_true_2; [exact Hagain|].
      apply Hsub, elem_of_union. left. by apply elem_of_singleton.
Qed.


Lemma os_makedirs_made (path : str) (w w1 : world) :
  os_makedirs path w = inr w1 →
  w1 = {| files := files w;
          dirs := list_to_set (path :: parents path) ∪ dirs w;
          written := written w;
          os_refuses := os_refuses w;
          write_refuses := write_refuses w;
          read_refuses := read_refuses w;
          flushed := flushed w |}
  ∧ path ≠ []
  ∧ (∀ p, p ∈ parents path ++ [path] → path_fault p = None).
Proof.
  unfold os_makedirs. case_bool_decide as Hne; [discriminate|].
  intros [-> Hall]%mkdir_each_made. split; [|done].
  f_equal. f_equal. rewrite list_to_set_app_L. simpl.
  by rewrite (right_id_L ∅ (∪)), (comm_L (∪)).
Qed.

(** A raise of [os.makedirs] leaves the files and the log as they were,
    and the call raises the same on the store it left. *)
Lemma os_makedirs_raise (path : str) (w w' : world) (e : exn) :
  os_makedirs path w = inl (e, w') →
  files w' = files w ∧ written w' = written w
  ∧ os_makedirs path w' = inl (e, w').
Proof.
  unfold os_makedirs. case_bool_decide as Hne.
  - by intros [= <- <-].
  - intros (Hf & Hw & _ & _ & _ & Hagain)%mkdir_each_raise. done.
Qed.

Section ScriptTrace.

Variable json_loads : str → option value.
Variable json_dumps : bool → option nat → value → str.

(** A run ends as its trace says, in the store its log of writes gives. *)
Lemma split_dictionary_trace (input_file output_dir : str) (w : world) :
  let r := split_dictionary json_loads json_dumps input_file output_dir w in
  let t := run_trace json_loads json_dumps input_file output_dir w in
  snd r = snd t
  ∧ fst r = match os_makedirs output_dir w with
            | inl (_, w') => w'
            | inr w1 => apply_log (fst t) w1
            end.
Proof.
  unfold split_dictionary, run_trace.
  destruct (os_makedirs output_dir w) as [[e w']|w1]; [done|].
  destruct (read_text input_file w1) as [e|text];
    [by rewrite apply_log_nil|].
  destruct (json_loads text) as [v|]; [|by rewrite apply_log_nil].
  destruct (py_iter v) as [e|items]; [by rewrite apply_log_nil|].
  destruct (for_entries_trace json_dumps output_dir items []
              {| seen_counts := ∅; store := w1 |}) as (seen & Hrun & _).
  { intros s. unfold count_of. simpl. by rewrite lookup_empty. }
  simpl in Hrun. rewrite Hrun. done.
Qed.

(** The log and the files of a run, from the store it started in. *)
Lemma split_dictionary_log (input_file output_dir : str) (w : world) :
  let r := split_dictionary json_loads json_dumps input_file output_dir w in
  let t := run_trace json_loads json_dumps input_file output_dir w in
  written (fst r) = written w ++ fst t
  ∧ files (fst r) = replay (files w) (fst t)
  ∧ snd r = snd t.
Proof.
  intros r t.
  destruct (split_dictionary_trace input_file output_dir w) as [Hr Hw].
  fold r t in Hr, Hw. split; [|split; [|exact Hr]].
  - rewrite Hw. destruct (os_makedirs output_dir w) as [[e w']|w1] eqn:Hm.
    + assert (fst t = []) as ->; [|rewrite app_nil_r].
      { unfold t, run_trace. by rewrite Hm. }
      by apply os_makedirs_raise in Hm as (_ & -> & _).
    + apply os_makedirs_made in Hm as [-> _]. done.
  - rewrite Hw. destruct (os_makedirs output_dir w) as [[e w']|w1] eqn:Hm.
    + assert (fst t = []) as ->.
      { unfold t, run_trace. by rewrite Hm. }
      by apply os_makedirs_raise in Hm as (-> & _).
    + apply os_makedirs_made in Hm as [-> _]. done.
Qed.

(** Every write of the loop is the write of a filed entry at a path
    made of its sanitised title and an index. *)
Lemma loop_trace_elem (output_dir : str) (w : world) (prev l : list value)
    (p t : str) :
  (p, t) ∈ fst (loop_trace json_dumps output_dir w prev l) →
  ∃ e safe k,
    e ∈ l ∧ filed_title e = Some safe
    ∧ p = os_path_join output_dir (spec_filename safe k)
    ∧ (t = json_dumps false (Some 2%nat) e
       ∨ t = take (flushed w e) (json_dumps false (Some 2%nat) e)).
Proof.
  revert prev. induction l as [|a l IH]; intros prev; simpl.
  - by rewrite elem_of_nil.
  - destruct (entry_fault a); [by rewrite elem_of_nil|].
    destruct (filed_title a) as [safe|] eqn:Ha.
    + destruct (open_for_writing _ w); [by rewrite elem_of_nil|].
      destruct (dump_fault _ a w) as [y|].
      { simpl. rewrite list_elem_of_singleton. intros [= -> ->].
        exists a, safe, (occurrences safe prev).
        split; [left|]. split; [done|]. split; [done|]. by right. }
      * destruct (loop_trace json_dumps output_dir w (prev ++ [a]) l)
          as [log o] eqn:Hl.
        simpl. rewrite elem_of_cons. intros [[= -> ->]|H].
        -- exists a, safe, (occurrences safe prev).
           split; [left|]. split; [done|]. split; [done|]. by left.
        -- specialize (IH (prev ++ [a])). rewrite Hl in IH.
           destruct (IH H) as (e & s & k & He & Hrest).
           exists e, s, k. split; [by right | done].
    + intros H. destruct (IH _ H) as (e & s & k & He & Hrest).
      exists e, s, k. split; [by right | done].
Qed.

Lemma run_trace_elem (input_file output_dir : str) (w : world) (p t : str) :
  (p, t) ∈ fst (run_trace json_loads json_dumps input_file output_dir w) →
  ∃ e safe k,
    filed_title e = Some safe
    ∧ p = os_path_join output_dir (spec_filename safe k).
Proof.
  unfold run_trace.
  destruct (os_makedirs output_dir w) as [[x w']|w1]; [by rewrite elem_of_nil|].
  destruct (read_text input_file w1) as [x|text]; [by rewrite elem_of_nil|].
  destruct (json_loads text) as [v|]; [|by rewrite elem_of_nil].
  destruct (py_iter v) as [x|items]; [by rewrite elem_of_nil|].
  intros (e & safe & k & _ & Ht & Hp & _)%loop_trace_elem.
  by exists e, safe, k.
Qed.

End ScriptTrace.

(** ** Entries that are skipped *)

Section Skips.

Variable json_dumps : bool → option nat → value → str.

Lemma for_entries_skip (output_dir : str) (e : value) (pre post : list value)
    (st : state) :
  (∀ st', loop_body json_dumps output_dir e st' = inr st') →
  for_entries json_dumps output_dir (pre ++ e :: post) st
  = for_entries json_dumps output_dir (pre ++ post) st.
Proof.
  intros Hskip. revert st. induction pre as [|a pre IH]; intros st; simpl.
  - by rewrite Hskip.
  - destruct (loop_body json_dumps output_dir a st) as [[x st']|st'];
      [done | apply IH].
Qed.

Lemma loop_body_falsy (output_dir : str) (d : list (str * value)) (st : state) :
  truthy (dict_get d title_key) = false →
  loop_body json_dumps output_dir (VDict d) st = inr st.
Proof. intros H. unfold loop_body. simpl. by rewrite H. Qed.

End Skips.

(** C7: an entry whose title is the empty string, or that has no
    [title] key, is passed over without an exception: the state of the
    loop, with its table and its store, is left as it was, and a run over a
    sequence that holds the entry is the run over the sequence without it. *)
Theorem untitled_entry_skipped
    (json_dumps : bool → option nat → value → str)
    (output_dir : str) (d : list (str * value)) :
  dict_lookup d title_key = None ∨ dict_lookup d title_key = Some (VStr []) →
  (∀ st, loop_body json_dumps output_dir (VDict d) st = inr st)
  ∧ (∀ pre post st,
       for_entries json_dumps output_dir (pre ++ VDict d :: post) st
       = for_entries json_dumps output_dir (pre ++ post) st)
  ∧ (∀ safe prev,
       occurrences safe (prev ++ [VDict d]) = occurrences safe prev).
Proof.
  intros Hd.
  assert (Hfalsy : truthy (dict_get d title_key) = false).
  { unfold dict_get. by destruct Hd as [-> | ->]. }
  assert (Hskip : ∀ st, loop_body json_dumps output_dir (VDict d) st = inr st).
  { intros st. by apply loop_body_falsy. }
  split; [exact Hskip|]. split.
  - intros pre post st. by apply for_entries_skip.
  - intros safe prev. rewrite occurrences_snoc.
    assert (Hnone : filed_title (VDict d) = None).
    { unfold filed_title, dict_get. by destruct Hd as [-> | ->]. }
    rewrite Hnone, bool_decide_eq_false_2 by done. lia.
Qed.

(** The sample with an untitled entry, with and without that entry. *)
Lemma untitled_entry_skipped_witness :
  dict_lookup [(lit "pos", VStr (lit "N"))] title_key = None
  ∧ for_entries sample_dumps (lit "entries") gap_entries fresh_state
    = for_entries sample_dumps (lit "entries")
        [entry_of (lit "a/b") 1; entry_of [] 2; entry_of (lit "a_b") 3]
        fresh_state.
Proof.
  split; [reflexivity|].
  destruct (untitled_entry_skipped sample_dumps (lit "entries")
              [(lit "pos", VStr (lit "N"))] (or_introl eq_refl))
    as (_ & Hrun & _).
  exact (Hrun [entry_of (lit "a/b") 1] [entry_of [] 2; entry_of (lit "a_b") 3]
           fresh_state).
Defined.

(** ** A suffixed name that meets another title *)

(** C5: on the entries titled A, A and A_1 the run ends without an
    exception, all three entries are filed, and the second and the third are
    written to the same path: the store gains two files for three titled
    entries, and the file of the second entry holds the third. *)
Theorem split_dictionary_suffix_collision
    (json_dumps : bool → option nat → value → str) :
  let text_of := json_dumps false (Some 2%nat) in
  let w := store_with (sample_dumps false None colliding) in
  let r := split_dictionary sample_loads json_dumps input_path (lit "entries") w in
  sample_loads (sample_dumps false None colliding) = Some colliding
  ∧ map filed_title colliding_entries
    = [Some (lit "A"); Some (lit "A"); Some (lit "A_1")]
  ∧ snd r = None
  ∧ written (fst r)
    = [(lit "entries/A.json", text_of (entry_of (lit "A") 1));
       (lit "entries/A_1.json", text_of (entry_of (lit "A") 2));
       (lit "entries/A_1.json", text_of (entry_of (lit "A_1") 3))]
  ∧ files (fst r)
    = <[lit "entries/A_1.json" := text_of (entry_of (lit "A_1") 3)]>
        (<[lit "entries/A.json" := text_of (entry_of (lit "A") 1)]> (files w))
  ∧ dom (files (fst r))
    = {[input_path; lit "entries/A.json"; lit "entries/A_1.json"]}.
Proof.
  intros text_of w r.
  assert (Hl : sample_loads (sample_dumps false None colliding) = Some colliding)
    by (vm_compute; reflexivity).
  assert (Ht : run_trace sample_loads json_dumps input_path (lit "entries") w
    = ([(lit "entries/A.json", text_of (entry_of (lit "A") 1));
        (lit "entries/A_1.json", text_of (entry_of (lit "A") 2));
        (lit "entries/A_1.json", text_of (entry_of (lit "A_1") 3))], None))
    by (vm_compute; reflexivity).
  destruct (split_dictionary_log sample_loads json_dumps input_path
              (lit "entries") w) as (Hw & Hfl & Hr).
  fold r in Hw, Hfl, Hr. rewrite Ht in Hw, Hfl, Hr. simpl in Hw, Hfl, Hr.
  assert (Hfiles : files (fst r)
    = <[lit "entries/A_1.json" := text_of (entry_of (lit "A_1") 3)]>
        (<[lit "entries/A.json" := text_of (entry_of (lit "A") 1)]> (files w))).
  { rewrite Hfl. unfold replay. simpl. by rewrite insert_insert_eq. }
  split; [exact Hl|]. split; [reflexivity|]. split; [exact Hr|].
  split; [exact Hw|]. split; [exact Hfiles|].
  rewrite Hfiles, !dom_insert_L. unfold w, store_with. simpl.
  rewrite dom_singleton_L. set_solver.
Qed.

(** ** Where a run writes *)

Lemma run_trace_shape (json_loads : str → option value)
    (json_dumps : bool → option nat → value → str)
    (input_file output_dir : str) (w : world) (p t : str) :
  (p, t) ∈ fst (run_trace json_loads json_dumps input_file output_dir w) →
  ∃ name, p = output_dir ++ joint output_dir ++ name ∧ plain_json_name name.
Proof.
  intros (e & safe & k & Ht & ->)%run_trace_elem.
  exists (spec_filename safe k). split.
  - apply os_path_join_relative. by eapply filed_filename_relative.
  - by eapply filed_filename_plain.
Qed.

(** X5: a run writes only to paths made of the output directory and a
    name that holds no reserved character (so no separator) and ends with
    the extension; a path whose content the run changed is such a path, and
    no file of the store is removed. *)
Theorem split_dictionary_writes_inside
    (json_loads : str → option value)
    (json_dumps : bool → option nat → value → str)
    (input_file output_dir : str) (w : world) :
  let r := split_dictionary json_loads json_dumps input_file output_dir w in
  ∃ log,
    written (fst r) = written w ++ log
    ∧ (∀ p t, (p, t) ∈ log →
         ∃ name, p = output_dir ++ joint output_dir ++ name
                 ∧ plain_json_name name)
    ∧ (∀ p, files (fst r) !! p ≠ files w !! p →
         ∃ name, p = output_dir ++ joint output_dir ++ name
                 ∧ plain_json_name name)
    ∧ (∀ p, is_Some (files w !! p) → is_Some (files (fst r) !! p)).
Proof.
  intros r.
  destruct (split_dictionary_log json_loads json_dumps input_file output_dir w)
    as (Hw & Hf & _).
  fold r in Hw, Hf.
  set (log := fst (run_trace json_loads json_dumps input_file output_dir w))
    in Hw, Hf.
  assert (Hshape : ∀ p t, (p, t) ∈ log →
            ∃ name, p = output_dir ++ joint output_dir ++ name
                    ∧ plain_json_name name).
  { intros p t. apply run_trace_shape. }
  exists log. split; [exact Hw|]. split; [exact Hshape|]. split.
  - intros p Hp. rewrite Hf, replay_lookup in Hp.
    destruct (last_write log p) as [t|] eqn:Hl; [|done].
    apply (Hshape p t). by apply last_write_elem.
  - intros p Hp. rewrite Hf, replay_lookup.
    by destruct (last_write log p).
Qed.

(** ** Running the script again *)

Section Rerun.

Variable json_loads : str → option value.
Variable json_dumps : bool → option nat → value → str.



End Rerun.



(** ** Rounds one after the other *)

Lemma open_for_writing_log (path : str) (log : list (str * str)) (w : world) :
  open_for_writing path (apply_log log w) = open_for_writing path w.
Proof. reflexivity. Qed.

Section Rounds.

Variable json_loads : str → option value.
Variable json_dumps : bool → option nat → value → str.

Lemma write_entry_frame (path : str) (e : value) (w : world) :
  match write_entry json_dumps path e w with
  | inl (_, w') | inr w' => ∃ log, w' = apply_log log w
  end.
Proof.
  unfold write_entry. destruct (open_for_writing path w).
  - exists []. by rewrite apply_log_nil.
  - destruct (dump_fault path e w); eexists; apply write_text_log.
Qed.

Lemma loop_body_frame (output_dir : str) (e : value) (st : state) :
  match loop_body json_dumps output_dir e st with
  | inl (_, st') | inr st' => ∃ log, store st' = apply_log log (store st)
  end.
Proof.
  destruct (entry_fault e) as [x|] eqn:Hf.
  { rewrite (loop_body_fault _ _ _ _ _ Hf). exists []. by rewrite apply_log_nil. }
  destruct (filed_title e) as [safe|] eqn:Ht.
  - rewrite (loop_body_filed _ _ _ _ _ Ht). cbn zeta.
    pose proof (write_entry_frame
                  (os_path_join output_dir
                     (spec_filename safe (count_of (seen_counts st) safe)))
                  e (store st)) as H.
    by destruct (write_entry json_dumps _ e (store st)) as [[x w']|w'].
  - rewrite (loop_body_skip _ _ _ _ Hf Ht). exists [].
    by rewrite apply_log_nil.
Qed.

Lemma for_entries_frame (output_dir : str) (l : list value) (st : state) :
  ∃ log, store (fst (for_entries json_dumps output_dir l st))
         = apply_log log (store st).
Proof.
  revert st. induction l as [|e l IH]; intros st; simpl.
  - exists []. by rewrite apply_log_nil.
  - pose proof (loop_body_frame output_dir e st) as H.
    destruct (loop_body json_dumps output_dir e st) as [[x st']|st'].
    + exact H.
    + destruct H as [log1 H1]. destruct (IH st') as [log2 H2].
      exists (log1 ++ log2). by rewrite H2, H1, apply_log_app.
Qed.

Lemma for_entries_app (output_dir : str) (pre post : list value) (st : state) :
  snd (for_entries json_dumps output_dir pre st) = None →
  for_entries json_dumps output_dir (pre ++ post) st
  = for_entries json_dumps output_dir post
      (fst (for_entries json_dumps output_dir pre st)).
Proof.
  revert st. induction pre as [|e pre IH]; intros st; simpl; [done|].
  destruct (loop_body json_dumps output_dir e st) as [[x st']|st'];
    [discriminate | apply IH].
Qed.

(** After a part of the array that raised nothing the table counts the
    entries filed. *)
Lemma for_entries_counts (output_dir : str) (pre : list value) (st : state) :
  seen_counts st = ∅ →
  snd (for_entries json_dumps output_dir pre st) = None →
  counts_match (fst (for_entries json_dumps output_dir pre st)) pre.
Proof.
  intros Hempty Hnone.
  destruct (for_entries_trace json_dumps output_dir pre [] st)
    as (seen & Hrun & Hcount).
  { intros s. unfold count_of. by rewrite Hempty, lookup_empty. }
  rewrite Hrun in Hnone |- *. simpl in *. by apply Hcount.
Qed.

(** The round of a filed entry that a part of the array raising nothing
    comes before: it is the write at the path of its index. *)
Lemma loop_body_after (output_dir : str) (pre : list value) (e : value)
    (safe : str) (st : state) :
  seen_counts st = ∅ →
  snd (for_entries json_dumps output_dir pre st) = None →
  filed_title e = Some safe →
  let st1 := fst (for_entries json_dumps output_dir pre st) in
  let seen := <[safe := occurrences safe pre + 1]> (seen_counts st1) in
  loop_body json_dumps output_dir e st1
  = match write_entry json_dumps (assigned_path output_dir pre safe) e
            (store st1) with
    | inl (x, w) => inl (x, {| seen_counts := seen; store := w |})
    | inr w => inr {| seen_counts := seen; store := w |}
    end.
Proof.
  intros Hempty Hnone Ht st1 seen. unfold seen, st1, assigned_path.
  rewrite (loop_body_filed _ _ _ _ _ Ht). cbn zeta.
  by rewrite (for_entries_counts output_dir pre st Hempty Hnone safe).
Qed.

(** The script is the loop once the directory is made and the array
    loaded. *)
Lemma split_dictionary_loop (input_file output_dir : str) (w w1 : world)
    (text : str) (entries : list value) :
  os_makedirs output_dir w = inr w1 →
  read_text input_file w1 = inr text →
  json_loads text = Some (VList entries) →
  split_dictionary json_loads json_dumps input_file output_dir w
  = (store (fst (for_entries json_dumps output_dir entries
                   {| seen_counts := ∅; store := w1 |})),
     snd (for_entries json_dumps output_dir entries
            {| seen_counts := ∅; store := w1 |})).
Proof.
  intros Hm Hread Hl. unfold split_dictionary. rewrite Hm, Hread, Hl. simpl.
  by destruct (for_entries json_dumps output_dir entries _).
Qed.

End Rounds.

(** ** Suffixes of duplicate titles *)

(** Three Apple entries, the first with a lone surrogate in another
    field, which the text of the input holds as an escape: the dump of the
    first raises after 29 characters, and the files of the second and the
    third are never written. *)
Lemma apple_with_surrogate_stops :
  let w := store_flushing 29 (sample_dumps true None marked_apples) in
  let r := split_dictionary (loads_escaped [marked_apples]) sample_dumps input_path
             (lit "entries") w in
  loads_escaped [marked_apples] (sample_dumps true None marked_apples)
  = Some marked_apples
  ∧ str_encodable (sample_dumps true None marked_apples) = true
  ∧ map filed_title [marked_apple; entry_of (lit "Apple") 2;
                     entry_of (lit "Apple") 3]
    = [Some (lit "Apple"); Some (lit "Apple"); Some (lit "Apple")]
  ∧ snd r = Some UnicodeEncodeError
  ∧ map fst (written (fst r)) = [lit "entries/Apple.json"]
  ∧ files (fst r) !! lit "entries/Apple.json"
    = Some (take 29 (sample_dumps false (Some 2%nat) marked_apple))
  ∧ files (fst r) !! lit "entries/Apple_1.json" = None
  ∧ files (fst r) !! lit "entries/Apple_2.json" = None.
Proof. vm_compute. repeat split; reflexivity. Qed.

Section Suffixes.

Variable json_loads : str → option value.
Variable json_dumps : bool → option nat → value → str.

(** The write of a filed entry that follows a part of the array raising
    nothing, when its path can be opened and its dump raises nothing. *)
Lemma for_entries_write (output_dir : str) (pre post : list value) (e : value)
    (safe : str) (st : state) :
  seen_counts st = ∅ →
  snd (for_entries json_dumps output_dir pre st) = None →
  filed_title e = Some safe →
  open_for_writing (assigned_path output_dir pre safe) (store st) = None →
  dump_fault (assigned_path output_dir pre safe) e (store st) = None →
  ∃ later,
    written (store (fst (for_entries json_dumps output_dir (pre ++ e :: post) st)))
    = written (store (fst (for_entries json_dumps output_dir pre st)))
      ++ [(assigned_path output_dir pre safe, json_dumps false (Some 2%nat) e)]
      ++ later.
Proof.
  intros Hempty Hnone Ht Hopen Henc.
  rewrite for_entries_app by done. cbn [for_entries].
  rewrite (loop_body_after json_dumps output_dir pre e safe st Hempty Hnone Ht).
  destruct (for_entries_frame json_dumps output_dir pre st) as [log1 Hst1].
  rewrite write_entry_done; [|by rewrite Hst1, open_for_writing_log
                             |by rewrite Hst1].
  match goal with |- context [for_entries _ _ post ?s] =>
    destruct (for_entries_frame json_dumps output_dir post s) as [later Hl] end.
  exists later. rewrite Hl. simpl. by rewrite <- app_assoc.
Qed.

End Suffixes.

Lemma three_alike_trace (json_dumps : bool → option nat → value → str)
    (output_dir title : str) (w : world) (d1 d2 d3 : list (str * value)) :
  title ≠ [] →
  dict_get d1 title_key = VStr title →
  dict_get d2 title_key = VStr title →
  dict_get d3 title_key = VStr title →
  let safe := sanitise_filename title in
  let p1 := os_path_join output_dir (spec_filename safe 0) in
  let p2 := os_path_join output_dir (spec_filename safe 1) in
  let p3 := os_path_join output_dir (spec_filename safe 2) in
  dump_fault p1 (VDict d1) w = None →
  dump_fault p2 (VDict d2) w = None →
  dump_fault p3 (VDict d3) w = None →
  open_for_writing p1 w = None →
  open_for_writing p2 w = None →
  open_for_writing p3 w = None →
  loop_trace json_dumps output_dir w [] [VDict d1; VDict d2; VDict d3]
  = ([(p1, json_dumps false (Some 2%nat) (VDict d1));
      (p2, json_dumps false (Some 2%nat) (VDict d2));
      (p3, json_dumps false (Some 2%nat) (VDict d3))], None).
Proof.
  intros Hne H1 H2 H3 safe p1 p2 p3 He1 He2 He3 Ho1 Ho2 Ho3.
  assert (Hfiled : ∀ d, dict_get d title_key = VStr title →
            filed_title (VDict d) = Some safe ∧ entry_fault (VDict d) = None).
  { intros d Hd. unfold filed_title, entry_fault. rewrite Hd.
    by destruct title. }
  destruct (Hfiled d1 H1) as [Ht1 Hf1], (Hfiled d2 H2) as [Ht2 Hf2],
    (Hfiled d3 H3) as [Ht3 Hf3].
  cbn [loop_trace]. rewrite Hf1, Ht1, Hf2, Ht2, Hf3, Ht3. cbn zeta.
  unfold assigned_path. cbn [app].
  rewrite !occurrences_cons, occurrences_nil, Ht1, Ht2.
  rewrite !bool_decide_eq_true_2 by done.
  change (1 + (1 + 0)) with 2. change (1 + 0) with 1.
  fold p1 p2 p3. rewrite Ho1, He1, Ho2, He2, Ho3, He3. done.
Qed.

(** C2, amended: the entries are handled in source order until a round
    raises, and among the entries filed under one sanitised title the first
    is written to [{title}.json] and the one with [k >= 1] earlier occurrences
    to [{title}_{k}.json], when its path can be opened and its dump raises
    nothing; a path that cannot be opened ends the run with nothing written
    for the entry, and a dump that raises, as that of a string that cannot be
    encoded does, ends it with a leading part of the text in the file.  Three
    entries titled Apple whose writes succeed give Apple.json, Apple_1.json
    and Apple_2.json, holding the first, second and third entry. *)
Theorem split_dictionary_suffix_order
    (json_loads : str → option value)
    (json_dumps : bool → option nat → value → str)
    (input_file output_dir : str) (w w1 : world) (text : str)
    (entries : list value) :
  os_makedirs output_dir w = inr w1 →
  read_text input_file w1 = inr text →
  json_loads text = Some (VList entries) →
  let r := split_dictionary json_loads json_dumps input_file output_dir w in
  let st0 := {| seen_counts := ∅; store := w1 |} in
  let text_of := json_dumps false (Some 2%nat) in
  (∀ pre e post safe,
     entries = pre ++ e :: post → filed_title e = Some safe →
     snd (for_entries json_dumps output_dir pre st0) = None →
     let before :=
       written (store (fst (for_entries json_dumps output_dir pre st0))) in
     let path :=
       os_path_join output_dir (spec_filename safe (occurrences safe pre)) in
     (open_for_writing path w1 = None → dump_fault path e w1 = None →
        ∃ later, written (fst r) = before ++ [(path, text_of e)] ++ later)
     ∧ (∀ x, open_for_writing path w1 = Some x →
          snd r = Some x ∧ written (fst r) = before)
     ∧ (∀ x, open_for_writing path w1 = None → dump_fault path e w1 = Some x →
          snd r = Some x
          ∧ written (fst r)
            = before ++ [(path, take (flushed w1 e) (text_of e))])
     ∧ (value_encodable e = false → dump_fault path e w1 = Some UnicodeEncodeError))
  ∧ (∀ safe, spec_filename safe 0 = safe ++ lit ".json")
  ∧ (∀ safe k, 0 < k →
       spec_filename safe k = safe ++ lit "_" ++ format_int k ++ lit ".json")
  ∧ (∀ d1 d2 d3,
       entries = [VDict d1; VDict d2; VDict d3] →
       dict_get d1 title_key = VStr (lit "Apple") →
       dict_get d2 title_key = VStr (lit "Apple") →
       dict_get d3 title_key = VStr (lit "Apple") →
       let p1 := os_path_join output_dir (lit "Apple.json") in
       let p2 := os_path_join output_dir (lit "Apple_1.json") in
       let p3 := os_path_join output_dir (lit "Apple_2.json") in
       dump_fault p1 (VDict d1) w1 = None →
       dump_fault p2 (VDict d2) w1 = None →
       dump_fault p3 (VDict d3) w1 = None →
       open_for_writing p1 w1 = None →
       open_for_writing p2 w1 = None →
       open_for_writing p3 w1 = None →
       written (fst r)
       = written w ++ [(p1, text_of (VDict d1)); (p2, text_of (VDict d2));
                       (p3, text_of (VDict d3))]
       ∧ files (fst r)
         = <[p3 := text_of (VDict d3)]>
             (<[p2 := text_of (VDict d2)]>
                (<[p1 := text_of (VDict d1)]> (files w)))
       ∧ snd r = None
       ∧ NoDup [p1; p2; p3]).
Proof.
  intros Hm Hread Hl r st0 text_of.
  pose proof (split_dictionary_loop json_loads json_dumps input_file output_dir
                w w1 text entries Hm Hread Hl) as Hloop.
  fold r st0 in Hloop.
  split; [|split; [done|split]].
  - intros pre e post safe -> Ht Hnone before path.
    pose proof (loop_body_after json_dumps output_dir pre e safe st0
                  eq_refl Hnone Ht) as Hbody.
    cbn zeta in Hbody.
    change (assigned_path output_dir pre safe) with path in Hbody.
    destruct (for_entries_frame json_dumps output_dir pre st0) as [log1 Hst1].
    assert (Hopen : open_for_writing path
                      (store (fst (for_entries json_dumps output_dir pre st0)))
                    = open_for_writing path w1).
    { by rewrite Hst1. }
    assert (Hdump : dump_fault path e
                      (store (fst (for_entries json_dumps output_dir pre st0)))
                    = dump_fault path e w1).
    { by rewrite Hst1. }
    split; [|split; [|split]].
    + intros Ho He.
      destruct (for_entries_write json_dumps output_dir pre post e safe st0
                  eq_refl Hnone Ht Ho He) as [later Hlater].
      exists later. rewrite Hloop. exact Hlater.
    + intros x Ho. rewrite Hloop, for_entries_app by done.
      cbn [for_entries]. rewrite Hbody.
      rewrite (write_entry_refused json_dumps path e _ x)
        by (by rewrite Hopen).
      done.
    + intros x Ho He. rewrite Hloop, for_entries_app by done.
      cbn [for_entries]. rewrite Hbody. rewrite <- Hopen in Ho.
      rewrite <- Hdump in He.
      rewrite (write_entry_cut json_dumps path e
                 (store (fst (for_entries json_dumps output_dir pre st0)))
                 x Ho He).
      unfold before. rewrite Hst1. simpl. done.
    + intros He. unfold dump_fault. by rewrite He.
  - intros safe k Hk. destruct k; [lia | done].
  - intros d1 d2 d3 -> H1 H2 H3 p1 p2 p3 He1 He2 He3 Ho1 Ho2 Ho3.
    assert (Hne : lit "Apple" ≠ []) by done.
    pose proof (three_alike_trace json_dumps output_dir (lit "Apple") w1
                  d1 d2 d3 Hne H1 H2 H3 He1 He2 He3 Ho1 Ho2 Ho3) as Htrace.
    destruct (split_dictionary_log json_loads json_dumps input_file output_dir w)
      as (Hw & Hfl & Hr).
    fold r in Hw, Hfl, Hr.
    assert (Ht : run_trace json_loads json_dumps input_file output_dir w
                 = loop_trace json_dumps output_dir w1 []
                     [VDict d1; VDict d2; VDict d3]).
    { unfold run_trace. by rewrite Hm, Hread, Hl. }
    rewrite Ht, Htrace in Hw, Hfl, Hr.
    split; [exact Hw|]. split; [exact Hfl|]. split; [exact Hr|].
    unfold p1, p2, p3.
    rewrite !os_path_join_relative by done.
    repeat constructor; rewrite ?elem_of_cons, ?elem_of_nil;
      intros H; repeat destruct H as [H|H]; try done;
      do 2 apply app_inv_head in H; discriminate.
Qed.

(** The run on the three Apple entries, with the sample codec. *)
Lemma split_dictionary_suffix_order_witness :
  let w := store_with (sample_dumps false None apples) in
  let r := split_dictionary sample_loads sample_dumps input_path (lit "entries") w in
  (∃ w1, os_makedirs (lit "entries") w = inr w1
         ∧ read_text input_path w1 = inr (sample_dumps false None apples))
  ∧ sample_loads (sample_dumps false None apples) = Some apples
  ∧ map fst (written (fst r))
    = [lit "entries/Apple.json"; lit "entries/Apple_1.json";
       lit "entries/Apple_2.json"]
  ∧ snd r = None.
Proof.
  destruct (os_makedirs (lit "entries")
              (store_with (sample_dumps false None apples))) as [x|w1] eqn:Hm;
    [vm_compute in Hm; discriminate|].
  assert (Hread : read_text input_path w1 = inr (sample_dumps false None apples)).
  { apply os_makedirs_made in Hm as [-> _]. vm_compute. reflexivity. }
  assert (Hl : sample_loads (sample_dumps false None apples) = Some apples)
    by (vm_compute; reflexivity).
  pose proof (os_makedirs_made _ _ _ Hm) as [Hw1 _].
  assert (Hdump : ∀ p e, value_encodable e = true → dump_fault p e w1 = None).
  { intros p e He. apply os_makedirs_made in Hm as [-> _].
    unfold dump_fault. by rewrite He. }
  split; [by exists w1|]. split; [exact Hl|].
  destruct (split_dictionary_suffix_order sample_loads sample_dumps input_path
              (lit "entries") _ w1 _ _ Hm Hread Hl) as (_ & _ & _ & Happle).
  destruct (Happle _ _ _ eq_refl eq_refl eq_refl eq_refl)
    as (Hw & _ & Hr & _);
    try (apply Hdump; reflexivity);
    try (rewrite Hw1; vm_compute; reflexivity).
  split; [|exact Hr]. rewrite Hw. reflexivity.
Defined.

(** ** The title-count table *)

Section Table.

Variable json_dumps : bool → option nat → value → str.

Lemma for_entries_prefix_none (output_dir : str) (pre post : list value)
    (st : state) :
  snd (for_entries json_dumps output_dir (pre ++ post) st) = None →
  snd (for_entries json_dumps output_dir pre st) = None.
Proof.
  revert st. induction pre as [|e pre IH]; intros st; simpl; [done|].
  destruct (loop_body json_dumps output_dir e st) as [[x st']|st'];
    [done | apply IH].
Qed.

(** A filed entry that the run got past: the part before it raised
    nothing, its path could be opened and its dump raised nothing. *)
Lemma for_entries_passed (output_dir : str) (pre post : list value) (e : value)
    (safe : str) (st : state) :
  seen_counts st = ∅ →
  snd (for_entries json_dumps output_dir (pre ++ e :: post) st) = None →
  filed_title e = Some safe →
  snd (for_entries json_dumps output_dir pre st) = None
  ∧ open_for_writing (assigned_path output_dir pre safe) (store st) = None
  ∧ dump_fault (assigned_path output_dir pre safe) e (store st) = None.
Proof.
  intros Hempty Hnone Ht.
  assert (Hpre : snd (for_entries json_dumps output_dir pre st) = None)
    by (by eapply for_entries_prefix_none).
  split; [exact Hpre|].
  rewrite for_entries_app in Hnone by done. cbn [for_entries] in Hnone.
  rewrite (loop_body_after json_dumps output_dir pre e safe st Hempty Hpre Ht)
    in Hnone.
  destruct (for_entries_frame json_dumps output_dir pre st) as [log1 Hst1].
  unfold write_entry in Hnone. rewrite Hst1, open_for_writing_log in Hnone.
  destruct (open_for_writing (assigned_path output_dir pre safe) (store st));
    [discriminate|].
  change (dump_fault (assigned_path output_dir pre safe) e
            (apply_log log1 (store st)))
    with (dump_fault (assigned_path output_dir pre safe) e (store st)) in Hnone.
  by destruct (dump_fault (assigned_path output_dir pre safe) e (store st)).
Qed.

Lemma loop_body_increments (output_dir : str) (e : value) (st1 : state) (safe : str) :
  filed_title e = Some safe →
  ∃ st2,
    (loop_body json_dumps output_dir e st1 = inr st2
     ∨ ∃ x, loop_body json_dumps output_dir e st1 = inl (x, st2))
    ∧ count_of (seen_counts st2) safe = count_of (seen_counts st1) safe + 1
    ∧ ∀ s, s ≠ safe → count_of (seen_counts st2) s = count_of (seen_counts st1) s.
Proof.
  intros Ht. rewrite (loop_body_filed _ _ _ _ _ Ht). cbn zeta.
  destruct (write_entry json_dumps _ e (store st1)) as [[x w]|w];
    eexists; (split; [by (left + (right; eexists))|]); simpl; split.
  all: try (by rewrite count_of_insert, bool_decide_eq_true_2).
  all: intros s Hs; by rewrite count_of_insert, bool_decide_eq_false_2.
Qed.

End Table.

(** C3: two entries filed under one sanitised title that the run both
    reaches are assigned different file names, the earlier entry the one
    with the smaller index; the entry of the table for a sanitised title
    grows by exactly one in each round of an entry filed under it, whether
    its write succeeds or raises, so after any part of the run it is the
    number of entries filed under that title so far. *)
Theorem seen_counts_number_occurrences
    (json_dumps : bool → option nat → value → str)
    (output_dir : str) (entries : list value) (st : state) :
  seen_counts st = ∅ →
  let text_of := json_dumps false (Some 2%nat) in
  (∀ pre post s,
     entries = pre ++ post →
     snd (for_entries json_dumps output_dir pre st) = None →
     let st_pre := fst (for_entries json_dumps output_dir pre st) in
     for_entries json_dumps output_dir entries st
     = for_entries json_dumps output_dir post st_pre
     ∧ count_of (seen_counts st_pre) s = occurrences s pre)
  ∧ (∀ e st1 safe,
       filed_title e = Some safe →
       ∃ st2,
         (loop_body json_dumps output_dir e st1 = inr st2
          ∨ ∃ x, loop_body json_dumps output_dir e st1 = inl (x, st2))
         ∧ count_of (seen_counts st2) safe = count_of (seen_counts st1) safe + 1
         ∧ ∀ s, s ≠ safe →
             count_of (seen_counts st2) s = count_of (seen_counts st1) s)
  ∧ (∀ l1 e1 l2 e2 l3 safe,
       entries = l1 ++ e1 :: l2 ++ e2 :: l3 →
       filed_title e1 = Some safe → filed_title e2 = Some safe →
       snd (for_entries json_dumps output_dir (l1 ++ e1 :: l2) st) = None →
       let st2 := fst (for_entries json_dumps output_dir (l1 ++ e1 :: l2) st) in
       let k1 := occurrences safe l1 in
       let k2 := occurrences safe (l1 ++ e1 :: l2) in
       let p1 := os_path_join output_dir (spec_filename safe k1) in
       let p2 := os_path_join output_dir (spec_filename safe k2) in
       (∃ later,
          written (store st2)
          = written (store (fst (for_entries json_dumps output_dir l1 st)))
            ++ [(p1, text_of e1)] ++ later)
       ∧ loop_body json_dumps output_dir e2 st2
         = match write_entry json_dumps p2 e2 (store st2) with
           | inl (x, w) =>
             inl (x, {| seen_counts := <[safe := k2 + 1]> (seen_counts st2);
                        store := w |})
           | inr w =>
             inr {| seen_counts := <[safe := k2 + 1]> (seen_counts st2);
                    store := w |}
           end
       ∧ k1 < k2
       ∧ spec_filename safe k1 ≠ spec_filename safe k2
       ∧ p1 ≠ p2).
Proof.
  intros Hempty text_of. split; [|split].
  - intros pre post s -> Hpre st_pre. split.
    + by apply for_entries_app.
    + by apply for_entries_counts.
  - intros e st1 safe. apply loop_body_increments.
  - intros l1 e1 l2 e2 l3 safe _ Ht1 Ht2 Hnone st2 k1 k2 p1 p2.
    destruct (for_entries_passed json_dumps output_dir l1 l2 e1 safe st
                Hempty Hnone Ht1) as (Hpre & Hopen & Henc).
    assert (Hk : k1 < k2).
    { unfold k1, k2. rewrite occurrences_app, occurrences_cons, Ht1.
      rewrite bool_decide_eq_true_2 by done. lia. }
    split; [|split; [|split; [exact Hk|split]]].
    + apply (for_entries_write json_dumps output_dir l1 l2 e1 safe st
               Hempty Hpre Ht1 Hopen Henc).
    + apply (loop_body_after json_dumps output_dir (l1 ++ e1 :: l2) e2 safe st
               Hempty Hnone Ht2).
    + intros H. apply spec_filename_inj in H. lia.
    + apply (filed_paths_differ _ _ _ _ _ Ht1). lia.
Qed.

(** The table after the sample with two entries filed under [a_b]. *)
Lemma seen_counts_number_occurrences_witness :
  seen_counts fresh_state = ∅
  ∧ snd (for_entries sample_dumps (lit "entries") gap_entries fresh_state) = None
  ∧ count_of
      (seen_counts
         (fst (for_entries sample_dumps (lit "entries") gap_entries fresh_state)))
      (lit "a_b") = 2.
Proof.
  assert (Hnone : snd (for_entries sample_dumps (lit "entries") gap_entries
                         fresh_state) = None) by (vm_compute; reflexivity).
  split; [reflexivity|]. split; [exact Hnone|].
  destruct (seen_counts_number_occurrences sample_dumps (lit "entries")
              gap_entries fresh_state eq_refl) as (Hprefix & _).
  destruct (Hprefix gap_entries [] (lit "a_b") (eq_sym (app_nil_r _)) Hnone)
    as [_ Hcount].
  exact Hcount.
Defined.

(** ** Titles that are false, titles that are true *)

Section Titles.

Variable json_dumps : bool → option nat → value → str.

Lemma loop_body_truthy (output_dir : str) (d : list (str * value)) (st : state) :
  truthy (dict_get d title_key) = true →
  loop_body json_dumps output_dir (VDict d) st
  = match sanitise_filename_of (dict_get d title_key) with
    | inl e => inl (e, st)
    | inr safe_title =>
      let seen := <[safe_title := count_of (seen_counts st) safe_title + 1]>
                    (seen_counts st) in
      match write_entry json_dumps
              (os_path_join output_dir
                 (spec_filename safe_title
                    (count_of (seen_counts st) safe_title)))
              (VDict d) (store st) with
      | inl (e, w) => inl (e, {| seen_counts := seen; store := w |})
      | inr w => inr {| seen_counts := seen; store := w |}
      end
    end.
Proof.
  intros H. destruct (dict_get d title_key) as [|b|z|f|s|l|d'] eqn:Ht.
  - discriminate.
  - unfold loop_body. simpl. rewrite Ht. simpl in *. by rewrite H.
  - unfold loop_body. simpl. rewrite Ht. simpl in *. by rewrite H.
  - unfold loop_body. simpl. rewrite Ht. by destruct f.
  - simpl. apply loop_body_filed. unfold filed_title. rewrite Ht.
    by destruct s.
  - unfold loop_body. simpl. rewrite Ht. by destruct l.
  - unfold loop_body. simpl. rewrite Ht. by destruct d'.
Qed.

End Titles.

(** C10: the loop passes over an entry whose title is false as a truth
    value (null, false, zero, the empty string, the empty array, the empty
    object) as it passes over an entry without a title: no exception, no
    write, the table as it was; only for a title that is true is the
    sanitiser called, and what it returns or raises decides the round: its
    exception ends the run, its result names the file of the round, which is
    counted in the table and then written unless the opening or the dump
    raises. *)
Theorem falsy_title_skipped
    (json_dumps : bool → option nat → value → str)
    (output_dir : str) (d : list (str * value)) (title : value) (st : state) :
  dict_lookup d title_key = Some title →
  (truthy title = false
   ↔ title ∈ [VNone; VBool false; VInt 0; VFloat (S754_zero false);
              VFloat (S754_zero true); VStr []; VList []; VDict []])
  ∧ (truthy title = false →
       loop_body json_dumps output_dir (VDict d) st = inr st
       ∧ loop_body json_dumps output_dir (VDict d) st
         = loop_body json_dumps output_dir (VDict []) st)
  ∧ (truthy title = true →
       loop_body json_dumps output_dir (VDict d) st
       = match sanitise_filename_of title with
         | inl e => inl (e, st)
         | inr safe_title =>
           let seen := <[safe_title := count_of (seen_counts st) safe_title + 1]>
                         (seen_counts st) in
           match write_entry json_dumps
                   (os_path_join output_dir
                      (spec_filename safe_title
                         (count_of (seen_counts st) safe_title)))
                   (VDict d) (store st) with
           | inl (e, w) => inl (e, {| seen_counts := seen; store := w |})
           | inr w => inr {| seen_counts := seen; store := w |}
           end
         end).
Proof.
  intros Hd.
  assert (Hget : dict_get d title_key = title).
  { unfold dict_get. by rewrite Hd. }
  split; [apply truthy_false_iff|]. split.
  - intros Hfalsy. split.
    + apply loop_body_falsy. by rewrite Hget.
    + rewrite loop_body_falsy by (by rewrite Hget). reflexivity.
  - intros Htruthy. rewrite <- Hget. apply loop_body_truthy. by rewrite Hget.
Qed.

(** An entry whose title is the number zero: the sanitiser would refuse
    the title, and the round leaves the state as it was. *)
Lemma falsy_title_skipped_witness :
  dict_lookup [(title_key, VInt 0)] title_key = Some (VInt 0)
  ∧ sanitise_filename_of (VInt 0) = inl TypeError
  ∧ loop_body sample_dumps (lit "entries") (VDict [(title_key, VInt 0)]) fresh_state
    = inr fresh_state.
Proof.
  split; [reflexivity|]. split; [reflexivity|].
  destruct (falsy_title_skipped sample_dumps (lit "entries")
              [(title_key, VInt 0)] (VInt 0) fresh_state eq_refl)
    as (_ & Hskip & _).
  destruct (Hskip eq_refl) as [H _]. exact H.
Defined.


(** ** What is written for an entry *)

(** An entry with a lone surrogate: the dump raises, and the file keeps
    the first 29 characters of a text of 34. *)
Lemma surrogate_entry_cut_short :
  let r := loop_body sample_dumps (lit "entries") marked_apple (flushing_state 29) in
  filed_title marked_apple = Some (lit "Apple")
  ∧ (∃ st', r = inl (UnicodeEncodeError, st')
            ∧ files (store st') !! lit "entries/Apple.json"
              = Some (take 29 (sample_dumps false (Some 2%nat) marked_apple)))
  ∧ length (sample_dumps false (Some 2%nat) marked_apple) = 34%nat.
Proof.
  split; [reflexivity|]. split; [|reflexivity].
  eexists. split; [vm_compute; reflexivity|]. vm_compute. reflexivity.
Qed.

(** C9, amended: for an entry that is filed, the round opens the path
    made of the output directory and the file name.  When the path can be
    opened and the dump raises nothing, the path then holds the text
    [json.dump] gives for the entry with [ensure_ascii=False] and [indent=2],
    whatever it held before, and every other path holds what it held.  When
    the path cannot be opened the round raises and no file is touched; when
    the dump raises, as it does with [UnicodeEncodeError] for a string that
    cannot be encoded, the path holds a leading part of the text only. *)
Theorem entry_written_as_json
    (json_dumps : bool → option nat → value → str)
    (output_dir : str) (entry : value) (st : state) (safe : str) :
  filed_title entry = Some safe →
  let filename := spec_filename safe (count_of (seen_counts st) safe) in
  let path := os_path_join output_dir filename in
  let text := json_dumps false (Some 2%nat) entry in
  path = output_dir ++ joint output_dir ++ filename
  ∧ (output_dir ≠ [] → endswith_sep output_dir = false →
       path = output_dir ++ lit "/" ++ filename)
  ∧ (open_for_writing path (store st) = None →
     dump_fault path entry (store st) = None →
     ∃ st',
       loop_body json_dumps output_dir entry st = inr st'
       ∧ files (store st') !! path = Some text
       ∧ (∀ p, p ≠ path → files (store st') !! p = files (store st) !! p)
       ∧ written (store st') = written (store st) ++ [(path, text)])
  ∧ (∀ x, open_for_writing path (store st) = Some x →
       ∃ st',
         loop_body json_dumps output_dir entry st = inl (x, st')
         ∧ store st' = store st)
  ∧ (∀ x, open_for_writing path (store st) = None →
     dump_fault path entry (store st) = Some x →
     ∃ st',
       loop_body json_dumps output_dir entry st = inl (x, st')
       ∧ files (store st') !! path = Some (take (flushed (store st) entry) text)
       ∧ (∀ p, p ≠ path → files (store st') !! p = files (store st) !! p))
  ∧ (value_encodable entry = true →
       dump_fault path entry (store st)
       = write_refuses (store st) path entry)
  ∧ (value_encodable entry = false →
       dump_fault path entry (store st) = Some UnicodeEncodeError).
Proof.
  intros Ht filename path text.
  assert (Hrel : path = output_dir ++ joint output_dir ++ filename).
  { apply os_path_join_relative. by eapply filed_filename_relative. }
  pose proof (loop_body_filed json_dumps output_dir entry st safe Ht) as Hbody.
  cbn zeta in Hbody. fold filename path in Hbody.
  split; [exact Hrel|]. split; [|split; [|split; [|split; [|split]]]].
  - intros Hne Hend. rewrite Hrel. unfold joint.
    rewrite bool_decide_eq_false_2 by done. by rewrite Hend.
  - intros Ho He. rewrite (write_entry_done _ _ _ _ Ho He) in Hbody.
    eexists. split; [exact Hbody|]. simpl. split; [apply lookup_insert_eq|].
    split; [|done]. intros p Hp. by apply lookup_insert_ne.
  - intros x Ho. rewrite (write_entry_refused _ _ _ _ _ Ho) in Hbody.
    eexists. split; [exact Hbody | done].
  - intros x Ho He. rewrite (write_entry_cut _ _ _ _ _ Ho He) in Hbody.
    eexists. split; [exact Hbody|]. simpl. split; [apply lookup_insert_eq|].
    intros p Hp. by apply lookup_insert_ne.
  - intros He. unfold dump_fault. by rewrite He.
  - intros He. unfold dump_fault. by rewrite He.
Qed.

(** The first Apple entry written to a store that holds an older file at
    its path. *)
Lemma entry_written_as_json_witness :
  let st := {| seen_counts := ∅;
               store := {| files := {[ lit "entries/Apple.json" := lit "old" ]};
                           dirs := {[ lit "entries" ]}; written := [];
                           os_refuses := λ _, None;
                           write_refuses := λ _ _, None;
                           read_refuses := λ _, None;
                           flushed := λ _, 0%nat |} |} in
  filed_title (entry_of (lit "Apple") 1) = Some (lit "Apple")
  ∧ ∃ st',
      loop_body sample_dumps (lit "entries") (entry_of (lit "Apple") 1) st = inr st'
      ∧ files (store st') !! lit "entries/Apple.json"
        = Some (sample_dumps false (Some 2%nat) (entry_of (lit "Apple") 1)).
Proof.
  split; [reflexivity|].
  destruct (entry_written_as_json sample_dumps (lit "entries")
              (entry_of (lit "Apple") 1)
              {| seen_counts := ∅;
                 store := {| files := {[ lit "entries/Apple.json" := lit "old" ]};
                             dirs := {[ lit "entries" ]}; written := [];
                             os_refuses := λ _, None;
                             write_refuses := λ _ _, None;
                             read_refuses := λ _, None;
                             flushed := λ _, 0%nat |} |}
              (lit "Apple") eq_refl)
    as (_ & _ & Hdone & _).
  destruct (Hdone eq_refl eq_refl) as (st' & Hrun & Hfile & _).
  exists st'. split; [exact Hrun | exact Hfile].
Defined.

(** ** Input that is not an array *)



Lemma sample_store_ready (text : str) :
  str_encodable text = true →
  ∃ w1, os_makedirs (lit "entries") (store_with text) = inr w1
        ∧ read_text input_path w1 = inr text.
Proof.
  intros Henc.
  destruct (os_makedirs (lit "entries") (store_with text)) as [x|w1] eqn:Hm;
    [vm_compute in Hm; discriminate|].
  exists w1. split; [done|].
  apply os_makedirs_made in Hm as [-> _].
  assert (Hp : path_fault input_path = None) by (vm_compute; reflexivity).
  unfold read_text, store_with. cbn [files dirs read_refuses]. rewrite Hp.
  match goal with
  | |- context [bool_decide ?P] =>
    replace (bool_decide P) with false by (vm_compute; reflexivity)
  end.
  rewrite lookup_singleton_eq. by rewrite Henc.
Qed.


(** ** A file that a later entry took *)

(** C4: on the entries titled A, A and A_1 the second entry is written
    to [A_1.json] and the third entry is written there after it; when the
    run ends the file of the second entry holds the text of the third, so
    what loads back from it, with any loader that reads the text of the
    third entry back, is the third entry and not the second, whose title is
    another. *)
Theorem collision_breaks_round_trip
    (json_dumps : bool → option nat → value → str) :
  let text_of := json_dumps false (Some 2%nat) in
  let w := store_with (sample_dumps false None colliding) in
  let r := split_dictionary sample_loads json_dumps input_path (lit "entries") w in
  let second := entry_of (lit "A") 2 in
  let third := entry_of (lit "A_1") 3 in
  colliding_entries !! 1%nat = Some second
  ∧ colliding_entries !! 2%nat = Some third
  ∧ snd r = None
  ∧ written (fst r) !! 1%nat = Some (lit "entries/A_1.json", text_of second)
  ∧ written (fst r) !! 2%nat = Some (lit "entries/A_1.json", text_of third)
  ∧ files (fst r) !! lit "entries/A_1.json" = Some (text_of third)
  ∧ (∀ loads : str → option value,
       loads (text_of third) = Some third →
       files (fst r) !! lit "entries/A_1.json" ≫= loads = Some third
       ∧ files (fst r) !! lit "entries/A_1.json" ≫= loads ≠ Some second)
  ∧ value_get third title_key = inr (VStr (lit "A_1"))
  ∧ value_get second title_key = inr (VStr (lit "A")).
Proof.
  intros text_of w r second third.
  assert (Ht : run_trace sample_loads json_dumps input_path (lit "entries") w
    = ([(lit "entries/A.json", text_of (entry_of (lit "A") 1));
        (lit "entries/A_1.json", text_of second);
        (lit "entries/A_1.json", text_of third)], None))
    by (vm_compute; reflexivity).
  destruct (split_dictionary_log sample_loads json_dumps input_path
              (lit "entries") w) as (Hw & Hfl & Hr).
  fold r in Hw, Hfl, Hr. rewrite Ht in Hw, Hfl, Hr. simpl in Hw, Hfl, Hr.
  assert (Hfile : files (fst r) !! lit "entries/A_1.json" = Some (text_of third)).
  { rewrite Hfl. unfold replay. simpl. apply lookup_insert_eq. }
  split; [reflexivity|]. split; [reflexivity|]. split; [exact Hr|].
  split; [by rewrite Hw|]. split; [by rewrite Hw|]. split; [exact Hfile|].
  split; [|split; reflexivity].
  intros loads Hloads. rewrite Hfile. simpl. rewrite Hloads.
  split; [done | discriminate].
Qed.
(** * Further properties *)

(** ** More on the sanitiser *)

Lemma lstrip_id (s : str) :
  (∀ c, head s = Some c → Py_UNICODE_ISSPACE c = false) → lstrip s = s.
Proof.
  destruct s as [|a s]; [done|]. intros H. simpl. by rewrite (H a).
Qed.

Lemma rstrip_id (s : str) :
  (∀ c, last s = Some c → Py_UNICODE_ISSPACE c = false) → rstrip s = s.
Proof.
  intros H. unfold rstrip. rewrite lstrip_id; [apply reverse_involutive|].
  intros c Hc. apply H. by rewrite <- head_reverse.
Qed.

Lemma spec_replace_id (s : str) :
  (∀ c, c ∈ s → c ∉ invalid_chars) → map spec_replace s = s.
Proof.
  induction s as [|a s IH]; intros H; simpl; [done|].
  rewrite IH by (intros c Hc; apply H; by right).
  unfold spec_replace. destruct (class_matches invalid_chars a) eqn:Ha; [|done].
  apply class_matches_elem in Ha. destruct (H a); [left | done].
Qed.

(** A string without reserved characters and without whitespace at its
    ends is its own sanitised form. *)
Lemma sanitise_filename_fixed (s : str) :
  (∀ c, c ∈ s → c ∉ invalid_chars) →
  (∀ c, head s = Some c → Py_UNICODE_ISSPACE c = false) →
  (∀ c, last s = Some c → Py_UNICODE_ISSPACE c = false) →
  sanitise_filename s = s.
Proof.
  intros Hres Hhead Hlast. rewrite sanitise_filename_map, spec_replace_id by done.
  unfold str_strip. rewrite (lstrip_id s Hhead). by apply rstrip_id.
Qed.

Lemma sanitise_filename_head (s : str) (c : char) :
  head (sanitise_filename s) = Some c → Py_UNICODE_ISSPACE c = false.
Proof. rewrite sanitise_filename_map. apply str_strip_head. Qed.

Lemma sanitise_filename_last (s : str) (c : char) :
  last (sanitise_filename s) = Some c → Py_UNICODE_ISSPACE c = false.
Proof. rewrite sanitise_filename_map. apply str_strip_last. Qed.

Lemma isspace_not_reserved (c : char) :
  Py_UNICODE_ISSPACE c = true → class_matches invalid_chars c = false.
Proof.
  intros Hc. destruct (class_matches invalid_chars c) eqn:Hr; [|done].
  apply class_matches_elem in Hr. unfold invalid_chars in Hr.
  rewrite !elem_of_cons, elem_of_nil in Hr.
  repeat destruct Hr as [->|Hr]; try discriminate. destruct Hr.
Qed.

Lemma lstrip_all_space (s : str) :
  Forall (λ c, Py_UNICODE_ISSPACE c = true) s → lstrip s = [].
Proof. induction 1 as [|c s Hc _ IH]; simpl; [done|]. by rewrite Hc. Qed.

Lemma lstrip_app_space (pre s : str) :
  Forall (λ c, Py_UNICODE_ISSPACE c = true) pre → lstrip (pre ++ s) = lstrip s.
Proof. induction 1 as [|c pre Hc _ IH]; simpl; [done|]. by rewrite Hc. Qed.

Lemma rstrip_app_space (s post : str) :
  Forall (λ c, Py_UNICODE_ISSPACE c = true) post → rstrip (s ++ post) = rstrip s.
Proof.
  intros H. unfold rstrip. rewrite reverse_app, lstrip_app_space; [done|].
  by apply Forall_reverse.
Qed.

Lemma lstrip_app (s post : str) :
  lstrip (s ++ post)
  = match lstrip s with [] => lstrip post | _ => lstrip s ++ post end.
Proof.
  induction s as [|c s IH]; simpl; [done|].
  by destruct (Py_UNICODE_ISSPACE c).
Qed.

Lemma str_strip_context (pre s post : str) :
  Forall (λ c, Py_UNICODE_ISSPACE c = true) pre →
  Forall (λ c, Py_UNICODE_ISSPACE c = true) post →
  str_strip (pre ++ s ++ post) = str_strip s.
Proof.
  intros Hpre Hpost. unfold str_strip.
  rewrite lstrip_app_space by done. rewrite lstrip_app.
  destruct (lstrip s) as [|a r] eqn:Hs.
  - by rewrite lstrip_all_space.
  - by rewrite rstrip_app_space.
Qed.

Lemma spec_replace_space (s : str) :
  Forall (λ c, Py_UNICODE_ISSPACE c = true) s → map spec_replace s = s.
Proof.
  induction 1 as [|c s Hc _ IH]; simpl; [done|]. rewrite IH.
  unfold spec_replace. by rewrite isspace_not_reserved.
Qed.

(** X1: sanitising a sanitised name changes nothing. *)
Theorem sanitise_filename_idempotent (name : str) :
  sanitise_filename (sanitise_filename name) = sanitise_filename name.
Proof.
  apply sanitise_filename_fixed.
  - apply sanitise_filename_no_reserved.
  - apply sanitise_filename_head.
  - apply sanitise_filename_last.
Qed.

(** X2: the names the sanitiser leaves as they are are exactly those
    without a reserved character and without whitespace at either end. *)
Theorem sanitise_filename_unchanged_iff (name : str) :
  sanitise_filename name = name
  ↔ (∀ c, c ∈ name → c ∉ invalid_chars)
    ∧ (∀ c, head name = Some c → Py_UNICODE_ISSPACE c = false)
    ∧ (∀ c, last name = Some c → Py_UNICODE_ISSPACE c = false).
Proof.
  split.
  - intros H. rewrite <- H. split; [|split].
    + apply sanitise_filename_no_reserved.
    + apply sanitise_filename_head.
    + apply sanitise_filename_last.
  - intros (Hres & Hhead & Hlast). by apply sanitise_filename_fixed.
Qed.

(** X3: the sanitised name is never longer than the title, and it is
    empty exactly when the title holds whitespace only: a reserved character
    becomes an underscore, which stays. *)
Theorem sanitise_filename_empty_iff (name : str) :
  (length (sanitise_filename name) ≤ length name)%nat
  ∧ (sanitise_filename name = []
     ↔ Forall (λ c, Py_UNICODE_ISSPACE c = true) name).
Proof.
  rewrite sanitise_filename_map.
  destruct (str_strip_split (map spec_replace name))
    as (pre & post & Heq & Hpre & Hpost).
  split.
  - apply (f_equal length) in Heq. rewrite length_map, !length_app in Heq. lia.
  - split.
    + intros Hnil. rewrite Hnil in Heq. simpl in Heq.
      assert (Hall : Forall (λ c, Py_UNICODE_ISSPACE c = true)
                       (map spec_replace name)).
      { rewrite Heq. by apply Forall_app. }
      clear -Hall. induction name as [|c s IH]; [constructor|].
      simpl in Hall. apply Forall_cons in Hall as [Hc Hs].
      constructor; [|by apply IH].
      unfold spec_replace in Hc.
      by destruct (class_matches invalid_chars c).
    + intros Hall. rewrite (spec_replace_space name Hall).
      unfold str_strip. by rewrite lstrip_all_space.
Qed.

(** X4: whitespace around a title does not change the name it is filed
    under. *)
Theorem sanitise_filename_context (pre name post : str) :
  Forall (λ c, Py_UNICODE_ISSPACE c = true) pre →
  Forall (λ c, Py_UNICODE_ISSPACE c = true) post →
  sanitise_filename (pre ++ name ++ post) = sanitise_filename name.
Proof.
  intros Hpre Hpost. rewrite !sanitise_filename_map.
  change (map spec_replace (pre ++ name ++ post))
    with (spec_replace <$> (pre ++ name ++ post)).
  rewrite !fmap_app.
  change (spec_replace <$> pre) with (map spec_replace pre).
  change (spec_replace <$> post) with (map spec_replace post).
  rewrite (spec_replace_space pre Hpre), (spec_replace_space post Hpost).
  by apply str_strip_context.
Qed.

(** A title between a tab and an ideographic space. *)
Lemma sanitise_filename_context_witness :
  Forall (λ c, Py_UNICODE_ISSPACE c = true) [9; 32]
  ∧ Forall (λ c, Py_UNICODE_ISSPACE c = true) [12288]
  ∧ sanitise_filename ([9; 32] ++ ([27700] ++ lit "/b") ++ [12288])
    = [27700] ++ lit "_b".
Proof.
  assert (Hpre : Forall (λ c, Py_UNICODE_ISSPACE c = true) [9; 32])
    by (repeat constructor).
  assert (Hpost : Forall (λ c, Py_UNICODE_ISSPACE c = true) [12288])
    by (repeat constructor).
  split; [exact Hpre|]. split; [exact Hpost|].
  rewrite (sanitise_filename_context [9; 32] ([27700] ++ lit "/b") [12288] Hpre Hpost).
  reflexivity.
Defined.

(** ** Runs that raise nothing *)

Section CleanRuns.

Variable json_loads : str → option value.
Variable json_dumps : bool → option nat → value → str.

(** A loop that raises nothing made the writes of all its entries, in
    full, and none of its items raised. *)
Lemma loop_trace_clean (output_dir : str) (w : world) (prev l : list value) :
  snd (loop_trace json_dumps output_dir w prev l) = None →
  fst (loop_trace json_dumps output_dir w prev l)
  = spec_writes json_dumps output_dir prev l
  ∧ (∀ e, e ∈ l → entry_fault e = None)
  ∧ (∀ p t, (p, t) ∈ spec_writes json_dumps output_dir prev l →
       open_for_writing p w = None).
Proof.
  revert prev. induction l as [|a l IH]; intros prev.
  - simpl. intros _. split; [done|].
    split; [by intros e H%elem_of_nil | by intros p t H%elem_of_nil].
  - cbn [loop_trace spec_writes]. unfold spec_write.
    destruct (entry_fault a) eqn:Hfa; [discriminate|].
    destruct (filed_title a) as [safe|] eqn:Ha.
    + cbn zeta.
      destruct (open_for_writing (assigned_path output_dir prev safe) w)
        eqn:Ho; [discriminate|].
      destruct (dump_fault (assigned_path output_dir prev safe) a w);
        [discriminate|].
      specialize (IH (prev ++ [a])).
      destruct (loop_trace json_dumps output_dir w (prev ++ [a]) l)
        as [log o]. simpl in IH |- *.
      intros Hn. destruct (IH Hn) as (-> & Hall & Hop).
      split; [done|]. split.
      * intros e [->|He]%elem_of_cons; [done | by apply Hall].
      * intros p t [[= -> ->]|H]%elem_of_cons; [done | by eapply Hop].
    + simpl. intros Hn. destruct (IH _ Hn) as (-> & Hall & Hop).
      split; [done|]. split; [|done].
      intros e [->|He]%elem_of_cons; [done | by apply Hall].
Qed.

(** A loop makes no more writes than it has filed entries. *)
Lemma loop_trace_length (output_dir : str) (w : world) (prev l : list value) :
  (length (fst (loop_trace json_dumps output_dir w prev l))
   ≤ length (omap filed_title l))%nat.
Proof.
  revert prev. induction l as [|a l IH]; intros prev; [done|].
  cbn [loop_trace].
  change (omap filed_title (a :: l))
    with (match filed_title a with
          | Some x => x :: omap filed_title l
          | None => omap filed_title l
          end).
  destruct (entry_fault a).
  { simpl. lia. }
  destruct (filed_title a) as [safe|] eqn:Ha; [|apply IH].
  cbn zeta.
  destruct (open_for_writing (assigned_path output_dir prev safe) w).
  { simpl. lia. }
  destruct (dump_fault (assigned_path output_dir prev safe) a w).
  { simpl. lia. }
  specialize (IH (prev ++ [a])).
  destruct (loop_trace json_dumps output_dir w (prev ++ [a]) l) as [log o].
  simpl in IH |- *. lia.
Qed.

(** The trace of a run whose input was read as an array. *)
Lemma run_trace_array (input_file output_dir : str) (w w1 : world)
    (text : str) (entries : list value) :
  os_makedirs output_dir w = inr w1 →
  read_text input_file w1 = inr text →
  json_loads text = Some (VList entries) →
  run_trace json_loads json_dumps input_file output_dir w
  = loop_trace json_dumps output_dir w1 [] entries.
Proof.
  intros Hm Hread Hl. unfold run_trace. by rewrite Hm, Hread, Hl.
Qed.

(** A run that raises nothing: its log and its files. *)
Lemma split_dictionary_clean (input_file output_dir : str) (w w1 : world)
    (text : str) (entries : list value) :
  os_makedirs output_dir w = inr w1 →
  read_text input_file w1 = inr text →
  json_loads text = Some (VList entries) →
  let r := split_dictionary json_loads json_dumps input_file output_dir w in
  snd r = None →
  written (fst r) = written w ++ spec_writes json_dumps output_dir [] entries
  ∧ files (fst r)
    = replay (files w) (spec_writes json_dumps output_dir [] entries).
Proof.
  intros Hm Hread Hl r Hnone.
  destruct (split_dictionary_log json_loads json_dumps input_file output_dir w)
    as (Hw & Hf & Hr).
  fold r in Hw, Hf, Hr.
  rewrite (run_trace_array _ _ _ _ _ _ Hm Hread Hl) in Hw, Hf, Hr.
  rewrite Hnone in Hr. symmetry in Hr.
  apply loop_trace_clean in Hr as (Hlog & _). by rewrite Hlog in Hw, Hf.
Qed.

End CleanRuns.

(** ** How many files, and what they hold *)

Section Writes.

Variable json_dumps : bool → option nat → value → str.


Lemma spec_writes_length (output_dir : str) (prev l : list value) :
  length (spec_writes json_dumps output_dir prev l)
  = length (omap filed_title l).
Proof.
  revert prev. induction l as [|a l IH]; intros prev; simpl; [done|].
  rewrite length_app, IH. unfold spec_write.
  by destruct (filed_title a).
Qed.

(** The paths of a loop that raises nothing: for each sanitised title,
    the indices from the number of its earlier occurrences on. *)
Lemma spec_writes_paths (output_dir : str) (prev l : list value) (p : str) :
  p ∈ map fst (spec_writes json_dumps output_dir prev l)
  ↔ ∃ safe k,
      occurrences safe prev ≤ k < occurrences safe (prev ++ l)
      ∧ p = os_path_join output_dir (spec_filename safe k).
Proof.
  revert prev. induction l as [|a l IH]; intros prev.
  - simpl. rewrite app_nil_r, elem_of_nil. split; [done|].
    intros (safe & k & Hk & _). lia.
  - cbn [spec_writes]. rewrite map_app, elem_of_app, IH.
    replace (prev ++ a :: l) with ((prev ++ [a]) ++ l)
      by (by rewrite <- app_assoc).
    split.
    + intros [H|(safe & k & Hk & ->)].
      * unfold spec_write in H. destruct (filed_title a) as [sa|] eqn:Ha;
          [|by apply elem_of_nil in H].
        apply list_elem_of_singleton in H. simpl in H. subst p.
        exists sa, (occurrences sa prev). split; [|done].
        rewrite occurrences_app, occurrences_snoc, Ha.
        rewrite bool_decide_eq_true_2 by done. lia.
      * exists safe, k. split; [|done].
        rewrite occurrences_snoc in Hk. lia.
    + intros (safe & k & Hk & ->).
      destruct (decide (filed_title a = Some safe ∧ k = occurrences safe prev))
        as [[Ha ->]|Hn].
      * left. unfold spec_write. rewrite Ha. simpl. left.
      * right. exists safe, k. split; [|done].
        rewrite occurrences_snoc. case_bool_decide as Ha; [|lia].
        assert (k ≠ occurrences safe prev) by tauto. lia.
Qed.

(** The paths of any loop are among those. *)
Lemma loop_trace_paths (output_dir : str) (w : world) (prev l : list value)
    (p t : str) :
  (p, t) ∈ fst (loop_trace json_dumps output_dir w prev l) →
  ∃ safe k,
    occurrences safe prev ≤ k < occurrences safe (prev ++ l)
    ∧ p = os_path_join output_dir (spec_filename safe k).
Proof.
  revert prev. induction l as [|a l IH]; intros prev.
  - simpl. by rewrite elem_of_nil.
  - cbn [loop_trace].
    replace (prev ++ a :: l) with ((prev ++ [a]) ++ l)
      by (by rewrite <- app_assoc).
    assert (Hrest : (p, t) ∈ fst (loop_trace json_dumps output_dir w (prev ++ [a]) l) →
              ∃ safe k,
                occurrences safe prev ≤ k < occurrences safe ((prev ++ [a]) ++ l)
                ∧ p = os_path_join output_dir (spec_filename safe k)).
    { intros (safe & k & Hk & ->)%IH. exists safe, k. split; [|done].
      rewrite occurrences_snoc in Hk. lia. }
    assert (Hhere : ∀ safe, filed_title a = Some safe →
              occurrences safe prev ≤ occurrences safe prev
                < occurrences safe ((prev ++ [a]) ++ l)).
    { intros safe Ha. rewrite occurrences_app, occurrences_snoc, Ha.
      rewrite bool_decide_eq_true_2 by done. lia. }
    destruct (entry_fault a); [by rewrite elem_of_nil|].
    destruct (filed_title a) as [safe|] eqn:Ha; [|exact Hrest].
    cbn zeta.
    destruct (open_for_writing (assigned_path output_dir prev safe) w);
      [by rewrite elem_of_nil|].
    destruct (dump_fault (assigned_path output_dir prev safe) a w).
    { simpl. rewrite list_elem_of_singleton. intros [= -> ->].
      exists safe, (occurrences safe prev). split; [by apply Hhere | done]. }
    destruct (loop_trace json_dumps output_dir w (prev ++ [a]) l) as [log o].
    simpl in Hrest |- *. rewrite elem_of_cons. intros [[= -> ->]|H].
    + exists safe, (occurrences safe prev). split; [by apply Hhere | done].
    + by apply Hrest.
Qed.

End Writes.

Lemma omap_filed_length (l : list value) :
  (length (omap filed_title l) ≤ length l)%nat.
Proof.
  induction l as [|a l IH]; simpl; [done|]. unfold omap in IH.
  destruct (filed_title a); simpl; lia.
Qed.

Lemma insert_dom_size (m : gmap (list N) (list N)) (q t : str) :
  (size (dom (<[q := t]> m)) ≤ size (dom m) + 1)%nat.
Proof.
  rewrite dom_insert_L, size_union_alt, size_singleton.
  assert (Hle : (size (dom m ∖ {[q]}) ≤ size (dom m))%nat).
  { apply subseteq_size, subseteq_difference_l. reflexivity. }
  lia.
Qed.

Lemma replay_dom_size (m : gmap (list N) (list N)) (log : list (str * str)) :
  (size (dom (replay m log)) ≤ size (dom m) + length log)%nat.
Proof.
  revert m. induction log as [|[q t] log IH]; intros m.
  - change (replay m []) with m. simpl. lia.
  - change (replay m ((q, t) :: log)) with (replay (<[q := t]> m) log).
    pose proof (IH (<[q := t]> m)). pose proof (insert_dom_size m q t).
    simpl. lia.
Qed.

(** X6: a run whose input is an array makes at most one write for each
    titled entry, and exactly one for each when it raises nothing; the store
    gains at most one file per write, so at most as many as the array has
    entries. *)
Theorem split_dictionary_write_count
    (json_loads : str → option value)
    (json_dumps : bool → option nat → value → str)
    (input_file output_dir : str) (w w1 : world) (text : str)
    (entries : list value) :
  os_makedirs output_dir w = inr w1 →
  read_text input_file w1 = inr text →
  json_loads text = Some (VList entries) →
  let r := split_dictionary json_loads json_dumps input_file output_dir w in
  ∃ log,
    written (fst r) = written w ++ log
    ∧ (length log ≤ length (omap filed_title entries))%nat
    ∧ (snd r = None → length log = length (omap filed_title entries))
    ∧ (length log ≤ length entries)%nat
    ∧ (size (dom (files (fst r))) ≤ size (dom (files w)) + length log)%nat.
Proof.
  intros Hm Hread Hl r.
  destruct (split_dictionary_log json_loads json_dumps input_file output_dir w)
    as (Hw & Hf & Hr).
  fold r in Hw, Hf, Hr.
  rewrite (run_trace_array _ json_dumps _ _ _ _ _ _ Hm Hread Hl) in Hw, Hf, Hr.
  pose proof (loop_trace_length json_dumps output_dir w1 [] entries) as Hlen.
  pose proof (omap_filed_length entries) as Hle.
  exists (fst (loop_trace json_dumps output_dir w1 [] entries)).
  split; [exact Hw|]. split; [exact Hlen|]. split; [|split; [lia|]].
  - intros Hnone. rewrite Hnone in Hr. symmetry in Hr.
    apply loop_trace_clean in Hr as (-> & _). apply spec_writes_length.
  - rewrite Hf. apply replay_dom_size.
Qed.

(** The run on the entries titled A, A and A_1: three writes. *)
Lemma split_dictionary_write_count_witness :
  let w := store_with (sample_dumps false None colliding) in
  let r := split_dictionary sample_loads sample_dumps input_path (lit "entries") w in
  (∃ w1, os_makedirs (lit "entries") w = inr w1
         ∧ read_text input_path w1 = inr (sample_dumps false None colliding))
  ∧ sample_loads (sample_dumps false None colliding) = Some colliding
  ∧ snd r = None
  ∧ ∃ log, written (fst r) = written w ++ log ∧ length log = 3%nat.
Proof.
  destruct (sample_store_ready (sample_dumps false None colliding))
    as (w1 & Hm & Hread); [vm_compute; reflexivity|].
  assert (Hl : sample_loads (sample_dumps false None colliding) = Some colliding)
    by (vm_compute; reflexivity).
  assert (Hnone : snd (split_dictionary sample_loads sample_dumps input_path
                         (lit "entries")
                         (store_with (sample_dumps false None colliding))) = None)
    by (vm_compute; reflexivity).
  split; [by exists w1|]. split; [exact Hl|]. split; [exact Hnone|].
  destruct (split_dictionary_write_count sample_loads sample_dumps input_path
              (lit "entries") _ w1 _ _ Hm Hread Hl) as (log & Hw & _ & Hn & _).
  exists log. split; [exact Hw|]. rewrite (Hn Hnone). reflexivity.
Defined.



(** ** The names a run gives *)

(** X8: the paths a run writes are decided by how many entries are
    filed under each sanitised title: every path written is the plain name
    of a title or one of its suffixes [_1] to [_(n-1)], where [n] entries of
    the array are filed under the title; a run that raises nothing writes
    every one of them. *)
Theorem split_dictionary_names
    (json_loads : str → option value)
    (json_dumps : bool → option nat → value → str)
    (input_file output_dir : str) (w w1 : world) (text : str)
    (entries : list value) :
  os_makedirs output_dir w = inr w1 →
  read_text input_file w1 = inr text →
  json_loads text = Some (VList entries) →
  let r := split_dictionary json_loads json_dumps input_file output_dir w in
  ∃ log,
    written (fst r) = written w ++ log
    ∧ (∀ p, p ∈ map fst log →
         ∃ safe k,
           k < occurrences safe entries
           ∧ p = os_path_join output_dir (spec_filename safe k))
    ∧ (snd r = None →
       ∀ safe k,
         k < occurrences safe entries →
         os_path_join output_dir (spec_filename safe k) ∈ map fst log).
Proof.
  intros Hm Hread Hl r.
  destruct (split_dictionary_log json_loads json_dumps input_file output_dir w)
    as (Hw & Hf & Hr).
  fold r in Hw, Hf, Hr.
  rewrite (run_trace_array _ json_dumps _ _ _ _ _ _ Hm Hread Hl) in Hw, Hf, Hr.
  exists (fst (loop_trace json_dumps output_dir w1 [] entries)).
  split; [exact Hw|]. split.
  - intros p Hp. apply list_elem_of_fmap in Hp as ([q t] & -> & Hin).
    destruct (loop_trace_paths json_dumps _ _ _ _ _ _ Hin)
      as (safe & k & Hk & Hp).
    exists safe, k. split; [|exact Hp]. simpl in Hk. lia.
  - intros Hnone safe k Hk. rewrite Hnone in Hr. symmetry in Hr.
    apply loop_trace_clean in Hr as (-> & _).
    apply spec_writes_paths. exists safe, k. split; [|done].
    rewrite occurrences_nil. simpl. lia.
Qed.

(** The three Apple entries: the path of the index two is written. *)
Lemma split_dictionary_names_witness :
  let w := store_with (sample_dumps false None apples) in
  let r := split_dictionary sample_loads sample_dumps input_path (lit "entries") w in
  (∃ w1, os_makedirs (lit "entries") w = inr w1
         ∧ read_text input_path w1 = inr (sample_dumps false None apples))
  ∧ sample_loads (sample_dumps false None apples) = Some apples
  ∧ snd r = None
  ∧ occurrences (lit "Apple") apple_entries = 3
  ∧ ∃ log, written (fst r) = written w ++ log
      ∧ lit "entries/Apple_2.json" ∈ map fst log.
Proof.
  destruct (sample_store_ready (sample_dumps false None apples))
    as (w1 & Hm & Hread); [vm_compute; reflexivity|].
  assert (Hl : sample_loads (sample_dumps false None apples) = Some apples)
    by (vm_compute; reflexivity).
  assert (Hnone : snd (split_dictionary sample_loads sample_dumps input_path
                         (lit "entries")
                         (store_with (sample_dumps false None apples))) = None)
    by (vm_compute; reflexivity).
  split; [by exists w1|]. split; [exact Hl|]. split; [exact Hnone|].
  split; [reflexivity|].
  destruct (split_dictionary_names sample_loads sample_dumps input_path
              (lit "entries") _ w1 _ _ Hm Hread Hl) as (log & Hw & _ & Hnames).
  exists log. split; [exact Hw|].
  apply (Hnames Hnone (lit "Apple") 2). reflexivity.
Defined.

(** ** Titles that are all different *)

Section Distinct.

Variable json_dumps : bool → option nat → value → str.

Lemma spec_writes_distinct (output_dir : str) (prev l : list value) :
  NoDup (omap filed_title l) →
  (∀ s, s ∈ omap filed_title l → occurrences s prev = 0) →
  spec_writes json_dumps output_dir prev l
  = omap (own_write json_dumps output_dir) l.
Proof.
  revert prev. induction l as [|a l IH]; intros prev Hnd Hocc; [done|].
  cbn [spec_writes]. unfold spec_write, assigned_path.
  change (omap (own_write json_dumps output_dir) (a :: l))
    with (match own_write json_dumps output_dir a with
          | Some x => x :: omap (own_write json_dumps output_dir) l
          | None => omap (own_write json_dumps output_dir) l
          end).
  change (omap filed_title (a :: l))
    with (match filed_title a with
          | Some x => x :: omap filed_title l
          | None => omap filed_title l
          end) in Hnd, Hocc.
  unfold own_write at 1.
  destruct (filed_title a) as [sa|] eqn:Ha.
  - apply NoDup_cons in Hnd as [Hsa Hnd].
    rewrite (Hocc sa) by left. simpl. f_equal.
    apply IH; [done|]. intros s Hs. rewrite occurrences_snoc, Ha.
    rewrite bool_decide_eq_false_2 by (intros [= ->]; done).
    rewrite (Hocc s) by (by right). done.
  - simpl. apply IH; [done|]. intros s Hs. rewrite occurrences_snoc, Ha.
    rewrite bool_decide_eq_false_2 by done. rewrite (Hocc s) by done. done.
Qed.

Lemma own_path_inj (output_dir : str) (e e' : value) (safe safe' : str) :
  filed_title e = Some safe → filed_title e' = Some safe' →
  os_path_join output_dir (safe ++ dot_json)
  = os_path_join output_dir (safe' ++ dot_json) →
  safe = safe'.
Proof.
  intros He He' H.
  apply os_path_join_inj in H.
  - by apply app_inv_tail in H.
  - apply (filed_filename_relative e safe 0 He).
  - apply (filed_filename_relative e' safe' 0 He').
Qed.

Lemma last_write_own_none (output_dir : str) (l : list value) (e : value)
    (safe : str) :
  filed_title e = Some safe → safe ∉ omap filed_title l →
  last_write (omap (own_write json_dumps output_dir) l)
    (os_path_join output_dir (safe ++ dot_json)) = None.
Proof.
  intros He. induction l as [|a l IH]; intros Hnot; [done|].
  change (omap (own_write json_dumps output_dir) (a :: l))
    with (match own_write json_dumps output_dir a with
          | Some x => x :: omap (own_write json_dumps output_dir) l
          | None => omap (own_write json_dumps output_dir) l
          end).
  change (omap filed_title (a :: l))
    with (match filed_title a with
          | Some x => x :: omap filed_title l
          | None => omap filed_title l
          end) in Hnot.
  unfold own_write at 1.
  destruct (filed_title a) as [sa|] eqn:Ha.
  - apply not_elem_of_cons in Hnot as [Hne Hnot].
    simpl. rewrite (IH Hnot).
    rewrite bool_decide_eq_false_2; [done|].
    intros H. apply Hne. symmetry. by eapply own_path_inj.
  - by apply IH.
Qed.

Lemma last_write_own (output_dir : str) (l : list value) (e : value)
    (safe : str) :
  NoDup (omap filed_title l) → e ∈ l → filed_title e = Some safe →
  last_write (omap (own_write json_dumps output_dir) l)
    (os_path_join output_dir (safe ++ dot_json))
  = Some (json_dumps false (Some 2%nat) e).
Proof.
  intros Hnd Hin He. induction l as [|a l IH]; [by apply elem_of_nil in Hin|].
  change (omap (own_write json_dumps output_dir) (a :: l))
    with (match own_write json_dumps output_dir a with
          | Some x => x :: omap (own_write json_dumps output_dir) l
          | None => omap (own_write json_dumps output_dir) l
          end).
  change (omap filed_title (a :: l))
    with (match filed_title a with
          | Some x => x :: omap filed_title l
          | None => omap filed_title l
          end) in Hnd.
  unfold own_write at 1.
  apply elem_of_cons in Hin as [<-|Hin].
  - rewrite He in Hnd |- *. apply NoDup_cons in Hnd as [Hnot _].
    simpl. rewrite (last_write_own_none output_dir l e safe He Hnot).
    by rewrite bool_decide_eq_true_2.
  - destruct (filed_title a) as [sa|] eqn:Ha.
    + apply NoDup_cons in Hnd as [_ Hnd]. simpl. by rewrite (IH Hnd Hin).
    + by apply IH.
Qed.

End Distinct.

(** X9: when the titled entries of the array have sanitised titles that
    are all different and the run raises nothing, no suffix is used: each
    entry is written to the file named by its sanitised title, and that file
    holds the entry when the run ends. *)
Theorem split_dictionary_distinct_titles
    (json_loads : str → option value)
    (json_dumps : bool → option nat → value → str)
    (input_file output_dir : str) (w w1 : world) (text : str)
    (entries : list value) :
  os_makedirs output_dir w = inr w1 →
  read_text input_file w1 = inr text →
  json_loads text = Some (VList entries) →
  NoDup (omap filed_title entries) →
  let r := split_dictionary json_loads json_dumps input_file output_dir w in
  snd r = None →
  written (fst r)
    = written w ++ omap (own_write json_dumps output_dir) entries
  ∧ ∀ e safe,
      e ∈ entries → filed_title e = Some safe →
      files (fst r) !! os_path_join output_dir (safe ++ dot_json)
      = Some (json_dumps false (Some 2%nat) e).
Proof.
  intros Hm Hread Hl Hnd r Hnone.
  destruct (split_dictionary_clean json_loads json_dumps input_file output_dir
              w w1 text entries Hm Hread Hl Hnone) as (Hw & Hfl).
  fold r in Hw, Hfl.
  rewrite (spec_writes_distinct json_dumps output_dir [] entries Hnd)
    in Hw, Hfl by (intros s _; apply occurrences_nil).
  split; [exact Hw|]. intros e safe He Hsafe.
  rewrite Hfl, replay_lookup.
  by rewrite (last_write_own json_dumps output_dir _ e safe Hnd He Hsafe).
Qed.

(** Water and fire as the input array. *)
Lemma split_dictionary_distinct_titles_witness :
  let w := store_with (sample_dumps false None elements) in
  let r := split_dictionary (loads_from [elements]) sample_dumps input_path
             (lit "entries") w in
  (∃ w1, os_makedirs (lit "entries") w = inr w1
         ∧ read_text input_path w1 = inr (sample_dumps false None elements))
  ∧ loads_from [elements] (sample_dumps false None elements) = Some elements
  ∧ NoDup (omap filed_title [water; fire])
  ∧ snd r = None
  ∧ files (fst r) !! (lit "entries/" ++ [28779] ++ lit "_Fire.json")
    = Some (sample_dumps false (Some 2%nat) fire).
Proof.
  destruct (sample_store_ready (sample_dumps false None elements))
    as (w1 & Hm & Hread); [vm_compute; reflexivity|].
  assert (Hl : loads_from [elements] (sample_dumps false None elements)
               = Some (VList [water; fire])) by (vm_compute; reflexivity).
  assert (Hnd : NoDup (omap filed_title [water; fire])).
  { apply (bool_decide_unpack _). vm_compute. exact I. }
  assert (Hnone : snd (split_dictionary (loads_from [elements]) sample_dumps
                         input_path (lit "entries")
                         (store_with (sample_dumps false None elements))) = None)
    by (vm_compute; reflexivity).
  split; [by exists w1|]. split; [exact Hl|]. split; [exact Hnd|].
  split; [exact Hnone|].
  destruct (split_dictionary_distinct_titles (loads_from [elements]) sample_dumps
              input_path (lit "entries") _ w1 _ _ Hm Hread Hl Hnd Hnone)
    as [_ Hfiles].
  apply (Hfiles fire ([28779] ++ lit "_Fire")); [|reflexivity].
  right. left.
Defined.

(** ** Rounds that raise *)

(** X11: the loop stops at the first round that raises.  When the rounds
    before raised nothing, an item that raises before any file is touched (an
    item that is not a mapping, or a title that is true and not a string)
    ends the loop in the state those rounds left, and any round that raises
    ends it in the state that round left; the items after it are not looked
    at. *)
Theorem for_entries_stops_at_fault
    (json_dumps : bool → option nat → value → str)
    (output_dir : str) (pre post : list value) (bad : value) (x : exn)
    (st : state) :
  snd (for_entries json_dumps output_dir pre st) = None →
  (entry_fault bad = Some x →
     for_entries json_dumps output_dir (pre ++ bad :: post) st
     = (fst (for_entries json_dumps output_dir pre st), Some x)
     ∧ (x = AttributeError ∨ x = TypeError))
  ∧ (∀ st',
       loop_body json_dumps output_dir bad
         (fst (for_entries json_dumps output_dir pre st)) = inl (x, st') →
       for_entries json_dumps output_dir (pre ++ bad :: post) st
       = (st', Some x)).
Proof.
  intros Hpre. split.
  - intros Hbad. split.
    + rewrite for_entries_app by done. simpl.
      by rewrite (loop_body_fault json_dumps output_dir bad _ x Hbad).
    + unfold entry_fault in Hbad.
      destruct bad as [| | | | |l|d]; try (injection Hbad as <-; by left).
      destruct (dict_get d title_key) as [|b|z|f|s|l|d']; try discriminate;
        destruct (truthy _); try discriminate; injection Hbad as <-; by right.
  - intros st' Hbody. rewrite for_entries_app by done. simpl.
    by rewrite Hbody.
Qed.

(** A number between two entries. *)
Lemma for_entries_stops_at_fault_witness :
  snd (for_entries sample_dumps (lit "entries") [entry_of (lit "a") 1]
         fresh_state) = None
  ∧ entry_fault (VInt 5) = Some AttributeError
  ∧ snd (for_entries sample_dumps (lit "entries")
           ([entry_of (lit "a") 1] ++ VInt 5 :: [entry_of (lit "b") 2])
           fresh_state) = Some AttributeError
  ∧ map fst
      (written
         (store
            (fst (for_entries sample_dumps (lit "entries")
                    ([entry_of (lit "a") 1] ++ VInt 5 :: [entry_of (lit "b") 2])
                    fresh_state))))
    = [lit "entries/a.json"].
Proof.
  assert (Hpre : snd (for_entries sample_dumps (lit "entries")
                        [entry_of (lit "a") 1] fresh_state) = None)
    by (vm_compute; reflexivity).
  split; [exact Hpre|]. split; [reflexivity|].
  destruct (for_entries_stops_at_fault sample_dumps (lit "entries")
              [entry_of (lit "a") 1] [entry_of (lit "b") 2] (VInt 5)
              AttributeError fresh_state Hpre) as (Hfault & _).
  destruct (Hfault eq_refl) as (Hrun & _).
  rewrite Hrun. split; reflexivity.
Defined.

(** ** Titles of whitespace *)

(** X12: a title that is not empty but holds whitespace only is not
    passed over: the entry is filed under the empty name, so its round
    counts it and opens [.json] in the output directory, or [_k.json] when
    [k] such entries came before; the entry is written there when the path
    can be opened and the dump raises nothing. *)
Theorem blank_title_filed
    (json_dumps : bool → option nat → value → str)
    (output_dir : str) (d : list (str * value)) (title : str) (st : state) :
  dict_get d title_key = VStr title →
  title ≠ [] →
  Forall (λ c, Py_UNICODE_ISSPACE c = true) title →
  let path :=
    os_path_join output_dir (spec_filename [] (count_of (seen_counts st) [])) in
  let seen := <[[] := count_of (seen_counts st) [] + 1]> (seen_counts st) in
  filed_title (VDict d) = Some []
  ∧ spec_filename [] 0 = lit ".json"
  ∧ (∀ k, 0 < k → spec_filename [] k = lit "_" ++ format_int k ++ lit ".json")
  ∧ loop_body json_dumps output_dir (VDict d) st
    = match write_entry json_dumps path (VDict d) (store st) with
      | inl (e, w) => inl (e, {| seen_counts := seen; store := w |})
      | inr w => inr {| seen_counts := seen; store := w |}
      end
  ∧ (open_for_writing path (store st) = None →
     dump_fault path (VDict d) (store st) = None →
     ∃ st',
       loop_body json_dumps output_dir (VDict d) st = inr st'
       ∧ written (store st')
         = written (store st) ++ [(path, json_dumps false (Some 2%nat) (VDict d))]
       ∧ count_of (seen_counts st') [] = count_of (seen_counts st) [] + 1).
Proof.
  intros Hd Hne Hall path seen.
  assert (Hsafe : sanitise_filename title = []).
  { rewrite sanitise_filename_map, (spec_replace_space title Hall).
    unfold str_strip. by rewrite lstrip_all_space. }
  assert (Ht : filed_title (VDict d) = Some []).
  { unfold filed_title. rewrite Hd. destruct title; [done|]. by rewrite Hsafe. }
  pose proof (loop_body_filed json_dumps output_dir (VDict d) st [] Ht) as Hbody.
  cbn zeta in Hbody. fold path seen in Hbody.
  split; [exact Ht|]. split; [reflexivity|]. split; [|split; [exact Hbody|]].
  - intros k Hk. destruct k; [lia | reflexivity].
  - intros Ho He. rewrite (write_entry_done _ _ _ _ Ho He) in Hbody.
    eexists. split; [exact Hbody|]. simpl. split; [done|].
    unfold seen. by rewrite count_of_insert, bool_decide_eq_true_2.
Qed.

(** An entry whose title is three spaces. *)
Lemma blank_title_filed_witness :
  dict_get [(title_key, VStr (lit "   "))] title_key = VStr (lit "   ")
  ∧ lit "   " ≠ []
  ∧ Forall (λ c, Py_UNICODE_ISSPACE c = true) (lit "   ")
  ∧ ∃ st',
      loop_body sample_dumps (lit "entries")
        (VDict [(title_key, VStr (lit "   "))]) fresh_state = inr st'
      ∧ map fst (written (store st')) = [lit "entries/.json"].
Proof.
  assert (Hne : lit "   " ≠ []) by discriminate.
  assert (Hall : Forall (λ c, Py_UNICODE_ISSPACE c = true) (lit "   "))
    by (repeat constructor).
  split; [reflexivity|]. split; [exact Hne|]. split; [exact Hall|].
  destruct (blank_title_filed sample_dumps (lit "entries")
              [(title_key, VStr (lit "   "))] (lit "   ") fresh_state
              eq_refl Hne Hall) as (_ & _ & _ & _ & Hdone).
  destruct Hdone as (st' & Hrun & Hw & _); [reflexivity | reflexivity |].
  exists st'. split; [exact Hrun|]. rewrite Hw. reflexivity.
Defined.

(** ** Runs that end before the loop *)

Lemma mkdir_each_app_present (ps qs : list str) (w : world) :
  (∀ p, p ∈ ps → path_fault p = None ∧ p ∈ dirs w) →
  mkdir_each (ps ++ qs) w = mkdir_each qs w.
Proof.
  induction ps as [|p rest IH]; intros H; simpl; [done|].
  destruct (H p) as [-> Hd]; [left|].
  rewrite bool_decide_eq_true_2 by done.
  apply IH. intros q Hq. apply H. by right.
Qed.

(** X14: when [os.makedirs] raises, the run ends with its exception
    before the input is opened: no file is read or written.  An empty
    output path raises [FileNotFoundError], and an output path that names a
    regular file, below directories that exist, raises [FileExistsError];
    both leave the store as it was. *)
Theorem split_dictionary_makedirs_raises
    (json_loads : str → option value)
    (json_dumps : bool → option nat → value → str)
    (input_file output_dir : str) (w : world) :
  let r := split_dictionary json_loads json_dumps input_file output_dir w in
  (∀ e w', os_makedirs output_dir w = inl (e, w') →
     snd r = Some e ∧ fst r = w'
     ∧ files w' = files w ∧ written w' = written w)
  ∧ (output_dir = [] → snd r = Some FileNotFoundError ∧ fst r = w)
  ∧ (output_dir ≠ [] →
     (∀ p, p ∈ parents output_dir → path_fault p = None ∧ p ∈ dirs w) →
     path_fault output_dir = None →
     output_dir ∉ dirs w →
     is_Some (files w !! output_dir) →
     snd r = Some FileExistsError ∧ fst r = w).
Proof.
  intros r. split; [|split].
  - intros e w' Hm. unfold r, split_dictionary. rewrite Hm.
    apply os_makedirs_raise in Hm as (Hf & Hw & _). done.
  - intros ->. done.
  - intros Hne Hpar Hpf Hd Hfile.
    assert (Hm : os_makedirs output_dir w = inl (FileExistsError, w)).
    { unfold os_makedirs. rewrite bool_decide_eq_false_2 by done.
      rewrite mkdir_each_app_present by done. simpl. rewrite Hpf.
      rewrite bool_decide_eq_false_2 by done.
      by rewrite bool_decide_eq_true_2. }
    unfold r, split_dictionary. by rewrite Hm.
Qed.


